(** * FPS Keys Trainer (fpsKbdTrainer.js)

    A shallow embedding of the trainer's statistics store, its weighted key
    selection, the key-press controller, the ANSI-aware text helpers and the
    layout of the screen, followed by the properties of the written
    specification and by further properties read off the code.

    Conventions of the embedding.
    - Counters and millisecond values are JavaScript integers: [Z].
    - Arithmetic on JavaScript numbers is given twice.  The module
      [Binary64] evaluates lines 86 and 224-240 as the program does, every
      operation rounded to IEEE 754 binary64 (Rocq's primitive [float]);
      the screen (the accuracy, and the averages of line 106) is computed
      with it.  The definitions of the same names outside the module take
      quotients, products and differences exactly, in [Q]; they carry the
      properties that no rounding affects (bounds, membership of the
      selected key, the rounds of the controller), and the last part of the
      file shows where the two differ.
    - The module-level variables of the script ([stats], [round],
      [currentKey], [promptTime], [reactionTimes], [resultsLog]) together
      with the stats file and the pending [setTimeout] callbacks form the
      record [State]; every handler is a function on it.
    - What the environment answers ([Date.now()], [Math.random()], whether
      [writeFileSync] succeeds) is carried by the event.
    - An uncaught [TypeError] is the outcome [Crashed] (or [None] for the
      read-only helpers).
    - Key names and pressed characters are [string]; the lines handled by the
      ANSI helpers are lists of UTF-16 code units, since their [length] is
      what the helpers measure. *)

From Stdlib Require Import ZArith QArith Qround Qabs Lia Lqa Floats.
From stdpp Require Import gmap strings list.
From Equations Require Import Equations.

Local Open Scope Z_scope.

(** ** Numbers *)

(** [Number.prototype.toFixed(1)], as the number of tenths it prints: for
    [x >= 0] the integer [n] with [n/10] nearest to [x], the larger one on a
    tie; a negative [x] prints the sign and the digits of [-x].  (The
    exponent form used from 10^21 on is outside the model.) *)
Definition roundTenths (x : Q) : Z := Qfloor (x * 10 + (1 # 2))%Q.

Definition toFixed1 (x : Q) : Z :=
  if Qle_bool 0 x then roundTenths x else - roundTenths (- x)%Q.

(** What a statistic prints as: the text "N/A" or a decimal with one
    fractional digit, given by its number of tenths. *)
Inductive Display :=
  | NA
  | Fixed1 (tenths : Z).

Definition displayValue (d : Display) : option Q :=
  match d with
  | NA => None
  | Fixed1 n => Some (n # 10)%Q
  end.

(** ** Data model *)

(** A [bestTime]/[worstTime] property: missing, [null], or a number. *)
Inductive TimeSlot :=
  | Undefined
  | Null
  | Ms (t : Z).

Record KeyStat := mkKeyStat {
  attempts : Z;
  successes : Z;
  totalTime : Z;
  errors : Z;
  bestTime : TimeSlot;
  worstTime : TimeSlot
}.

(** The [stats] object: [meta] is [Some g] for [{ gamesPlayed: g }] and
    [None] when the property is missing; every other property is a per-key
    record. *)
Record Stats := mkStats {
  meta : option Z;
  entries : gmap string KeyStat
}.

(** Line 31. *)
Definition keys : list string :=
  ["q"; "e"; "r"; "t"; "f"; "g"; "c"; "x"; "z"]%string.

(** The contents of [stats.json]. [Unreadable] is a file whose read or
    parse throws; [NonObject] is well-formed JSON that is not an object
    ([null], a number, ...). *)
Inductive FileContent :=
  | Missing
  | Unreadable
  | NonObject
  | Object (o : Stats).

(** ** Loading the stats (lines 18-39) *)

Definition emptyObject : Stats := mkStats None ∅.

Definition freshKeyStat : KeyStat := mkKeyStat 0 0 0 0 Null Null.

(** Lines 18-25: [None] stands for a parsed value without properties. *)
Definition readStats (f : FileContent) : option Stats :=
  match f with
  | Missing => Some emptyObject
  | Unreadable => Some emptyObject
  | NonObject => None
  | Object o => Some o
  end.

(** Lines 26-28. *)
Definition ensureMeta (o : Stats) : Stats :=
  match meta o with
  | None => mkStats (Some 0) (entries o)
  | Some _ => o
  end.

Definition nullIfUndefined (t : TimeSlot) : TimeSlot :=
  match t with
  | Undefined => Null
  | _ => t
  end.

(** Lines 33-38, the body of the [forEach]. *)
Definition initKey (o : Stats) (key : string) : Stats :=
  match entries o !! key with
  | None => mkStats (meta o) (<[key := freshKeyStat]> (entries o))
  | Some s =>
      let s' := mkKeyStat (attempts s) (successes s) (totalTime s) (errors s)
                          (nullIfUndefined (bestTime s))
                          (nullIfUndefined (worstTime s)) in
      mkStats (meta o) (<[key := s']> (entries o))
  end.

Definition loadStats (f : FileContent) : option Stats :=
  match readStats f with
  | None => None
  | Some o => Some (fold_left initKey keys (ensureMeta o))
  end.

(** ** Analysis helpers (lines 79-93) *)

(** The [for] loop of [getOverallAccuracy]: both totals, or [None] when
    [stats[key]] is missing. *)
Fixpoint sumTotals (o : Stats) (ks : list string) (totalAttempts totalSuccesses : Z)
  : option (Z * Z) :=
  match ks with
  | [] => Some (totalAttempts, totalSuccesses)
  | key :: ks' =>
      match entries o !! key with
      | None => None
      | Some s => sumTotals o ks' (totalAttempts + attempts s)
                            (totalSuccesses + successes s)
      end
  end.

(** Lines 79-87, with the quotient and the product taken exactly;
    [Binary64.getOverallAccuracy] rounds them as the program does. *)
Definition getOverallAccuracy (o : Stats) : option Display :=
  match sumTotals o keys 0 0 with
  | None => None
  | Some (totalAttempts, totalSuccesses) =>
      Some (if 0 <? totalAttempts
            then Fixed1 (toFixed1
                   ((inject_Z totalSuccesses / inject_Z totalAttempts) * 100)%Q)
            else NA)
  end.

Definition getRollingAvg (reactionTimes : list Z) : Display :=
  if (length reactionTimes =? 0)%nat then NA
  else
    let sum := fold_left Z.add reactionTimes 0 in
    Fixed1 (toFixed1 (inject_Z sum / inject_Z (Z.of_nat (length reactionTimes)))%Q).

(** ** Selection (lines 224-240) *)

Definition getKeyWeight (o : Stats) (key : string) : option Q :=
  match entries o !! key with
  | None => None
  | Some s =>
      let avgTime :=
        if 0 <? successes s then (inject_Z (totalTime s) / inject_Z (successes s))%Q
        else 500%Q in
      let errorPenalty := (inject_Z (errors s) * 100)%Q in
      Some (avgTime + errorPenalty + 100)%Q
  end.

(** The [for] loop of [chooseNextKey]: the key at which [rnd] first drops to
    zero or below, [None] when the loop runs to its end. *)
Fixpoint walk (ks : list string) (weights : list Q) (rnd : Q) : option string :=
  match ks, weights with
  | key :: ks', w :: weights' =>
      let rnd' := (rnd - w)%Q in
      if Qle_bool rnd' 0 then Some key else walk ks' weights' rnd'
  | _, _ => None
  end.

(** Lines 231-240 with exact arithmetic; [random] is the value of
    [Math.random()].  [Binary64.chooseNextKey] rounds every step as the
    program does. *)
Definition chooseNextKey (o : Stats) (random : Q) : option string :=
  match mapM (getKeyWeight o) keys with
  | None => None
  | Some weights =>
      let totalWeight := fold_left Qplus weights 0%Q in
      let rnd := (random * totalWeight)%Q in
      match walk keys weights rnd with
      | Some key => Some key
      | None => last keys
      end
  end.

(** ** The arithmetic of lines 86 and 224-240 in binary64

    A JavaScript number is an IEEE 754 binary64 value, which is what Rocq's
    primitive [float] is.  The definitions above take quotients, products
    and differences exactly; here the same lines are evaluated as the
    program evaluates them, every operation rounded to binary64.  Counters
    and millisecond values stay integers ([Z]); they enter the arithmetic
    through [ofZ]. *)

Module Binary64.

(** The number of an integer: the nearest binary64 value. *)
Definition ofZ (z : Z) : float := SF2Prim (binary_normalize prec emax z 0 false).

(** The rational a finite binary64 value stands for; [None] for NaN and the
    infinities. *)
Definition valueOf (x : float) : option Q :=
  match Prim2SF x with
  | S754_zero _ => Some 0%Q
  | S754_finite s m e =>
      Some ((if s then inject_Z (Z.neg m) else inject_Z (Z.pos m)) * Qpower 2 e)%Q
  | _ => None
  end.

(** What a statistic prints as: "N/A", a decimal with one fractional digit
    (its sign and the number of its tenths), or the text of the number
    itself where [toFixed] falls back to it (NaN, the infinities, and
    magnitudes from 10^21 on). *)
Inductive Shown :=
  | NotAvailable
  | Fixed1 (negative : bool) (tenths : Z)
  | AsNumber (x : float).

(** [x.toFixed(1)] *)
Definition toFixed1 (x : float) : Shown :=
  match valueOf x with
  | None => AsNumber x
  | Some q =>
      if Qle_bool (inject_Z (10 ^ 21)) (Qabs q) then AsNumber x
      else Fixed1 (x <? 0)%float (roundTenths (Qabs q))
  end.

(** Lines 79-87. *)
Definition getOverallAccuracy (o : Stats) : option Shown :=
  match sumTotals o keys 0 0 with
  | None => None
  | Some (totalAttempts, totalSuccesses) =>
      Some (if 0 <? totalAttempts
            then toFixed1 (ofZ totalSuccesses / ofZ totalAttempts * 100)%float
            else NotAvailable)
  end.

(** Lines 224-229. *)
Definition getKeyWeight (o : Stats) (key : string) : option float :=
  match entries o !! key with
  | None => None
  | Some s =>
      let avgTime :=
        if 0 <? successes s then (ofZ (totalTime s) / ofZ (successes s))%float
        else 500%float in
      let errorPenalty := (ofZ (errors s) * 100)%float in
      Some (avgTime + errorPenalty + 100)%float
  end.

(** The [for] loop of lines 235-238. *)
Fixpoint walk (ks : list string) (weights : list float) (rnd : float) : option string :=
  match ks, weights with
  | key :: ks', w :: weights' =>
      let rnd' := (rnd - w)%float in
      if (rnd' <=? 0)%float then Some key else walk ks' weights' rnd'
  | _, _ => None
  end.

(** Lines 231-240; [random] is the value of [Math.random()]. *)
Definition chooseNextKey (o : Stats) (random : float) : option string :=
  match mapM (getKeyWeight o) keys with
  | None => None
  | Some weights =>
      let totalWeight := fold_left PrimFloat.add weights 0%float in
      let rnd := (random * totalWeight)%float in
      match walk keys weights rnd with
      | Some key => Some key
      | None => last keys
      end
  end.

(** The weight of a record, the weights of the tracked keys, their sum and
    the draw, as the program computes them. *)
Definition weight (s : KeyStat) : float :=
  ((if (0 <? successes s)%Z then ofZ (totalTime s) / ofZ (successes s) else 500)
   + ofZ (errors s) * 100 + 100)%float.

Definition weightsOf (o : Stats) : list float :=
  (λ key, weight (default (mkKeyStat 0 0 0 0 Null Null) (entries o !! key))) <$> keys.

Definition totalWeight (o : Stats) : float :=
  fold_left PrimFloat.add (weightsOf o) 0%float.

Definition draw (o : Stats) (random : float) : float := (random * totalWeight o)%float.

(** The running remainder after the subtraction at index [i]. *)
Fixpoint remainder (r : float) (ws : list float) (i : nat) : float :=
  match ws with
  | [] => r
  | w :: ws' =>
      match i with
      | O => (r - w)%float
      | S i' => remainder (r - w)%float ws' i'
      end
  end.






End Binary64.

(** ** Round controller (lines 41-46, 122-124, 216-222, 243-292) *)

(** One line of [resultsLog], by the values its template interpolates. *)
Inductive LogEntry :=
  | Correct (roundNo : Z) (key : string) (ms : Z)
  | Oops (roundNo : Z) (pressed : string) (key : string) (ms : Z).

Record State := mkState {
  stats : Stats;
  round : Z;
  currentKey : option string;
  promptTime : option Z;
  reactionTimes : list Z;
  resultsLog : list LogEntry;
  statsFile : FileContent;
  pendingRounds : nat
}.

(** A [keypress] event: its two arguments ([key] by its [sequence]) and what
    the environment answers while it is handled. *)
Record KeyEvent := mkKeyEvent {
  str : option string;
  sequence : string;
  now : Z;
  writeOk : bool
}.

Inductive Event :=
  | Keypress (e : KeyEvent)
  | TimerFired (random : Q) (time : Z).

Inductive Outcome :=
  | Running (s : State)
  | Exited (s : State)
  | Crashed (s : State).

Definition stateOf (r : Outcome) : State :=
  match r with
  | Running s | Exited s | Crashed s => s
  end.

Definition withStats (s : State) (o : Stats) : State :=
  mkState o (round s) (currentKey s) (promptTime s) (reactionTimes s)
          (resultsLog s) (statsFile s) (pendingRounds s).

Definition withEntry (o : Stats) (key : string) (ks : KeyStat) : Stats :=
  mkStats (meta o) (<[key := ks]> (entries o)).

(** Lines 216-222: a failed write is caught and leaves the file as it was. *)
Definition saveStats (s : State) (ok : bool) : State :=
  if ok then
    mkState (stats s) (round s) (currentKey s) (promptTime s) (reactionTimes s)
            (resultsLog s) (Object (stats s)) (pendingRounds s)
  else s.

(** Lines 123-124 of [displayFinalStats]; the rest only prints. *)
Definition displayFinalStats (s : State) (ok : bool) : option State :=
  match meta (stats s) with
  | None => None
  | Some g => Some (saveStats (withStats s (mkStats (Some (g + 1)) (entries (stats s)))) ok)
  end.

(** Lines 243-248. *)
Definition nextRound (s : State) (random : Q) (time : Z) : Outcome :=
  match chooseNextKey (stats s) random with
  | None => Crashed s
  | Some key =>
      Running (mkState (stats s) (round s + 1) (Some key) (Some time)
                       (reactionTimes s) (resultsLog s) (statsFile s)
                       (pendingRounds s))
  end.

Definition ctrlC : string := String (Ascii.ascii_of_nat 3) EmptyString.

(** [!currentKey] *)
Definition noCurrentKey (k : option string) : bool :=
  match k with
  | None => true
  | Some key => String.eqb key ""
  end.

(** Lines 273-278. *)
Definition updateBest (reactionTime : Z) (best : TimeSlot) : TimeSlot :=
  match best with
  | Null => Ms reactionTime
  | Ms b => if reactionTime <? b then Ms reactionTime else best
  | Undefined => best
  end.

Definition updateWorst (reactionTime : Z) (worst : TimeSlot) : TimeSlot :=
  match worst with
  | Null => Ms reactionTime
  | Ms w => if w <? reactionTime then Ms reactionTime else worst
  | Undefined => worst
  end.

(** Lines 279-280. *)
Definition pushReactionTime (reactionTime : Z) (times : list Z) : list Z :=
  let times' := times ++ [reactionTime] in
  if (4 <? length times')%nat then tail times' else times'.

(** Lines 256-292, the [keypress] listener. *)
Definition onKeypress (s : State) (e : KeyEvent) : Outcome :=
  if String.eqb (sequence e) ctrlC then
    match displayFinalStats s (writeOk e) with
    | Some s' => Exited s'
    | None => Crashed s
    end
  else if noCurrentKey (currentKey s) then Running s
  else
    match currentKey s with
    | None => Running s
    | Some key =>
        let reactionTime := now e - default 0 (promptTime s) in
        match entries (stats s) !! key with
        | None => Crashed s
        | Some k0 =>
            let k1 := mkKeyStat (attempts k0 + 1) (successes k0) (totalTime k0)
                                (errors k0) (bestTime k0) (worstTime k0) in
            if decide (str e = Some key) then
              let k2 := mkKeyStat (attempts k1) (successes k1 + 1)
                                  (totalTime k1 + reactionTime) (errors k1)
                                  (updateBest reactionTime (bestTime k1))
                                  (updateWorst reactionTime (worstTime k1)) in
              let s1 := mkState (withEntry (stats s) key k2) (round s) (currentKey s)
                                (promptTime s)
                                (pushReactionTime reactionTime (reactionTimes s))
                                (resultsLog s ++ [Correct (round s) key reactionTime])
                                (statsFile s) (pendingRounds s) in
              let s2 := saveStats s1 (writeOk e) in
              Running (mkState (stats s2) (round s2) None (promptTime s2)
                               (reactionTimes s2) (resultsLog s2) (statsFile s2)
                               (S (pendingRounds s2)))
            else
              let k2 := mkKeyStat (attempts k1) (successes k1) (totalTime k1)
                                  (errors k1 + 1) (bestTime k1) (worstTime k1) in
              let s1 := withStats s (withEntry (stats s) key k2) in
              match str e with
              | None => Crashed s1
              | Some pressed =>
                  let s2 := mkState (stats s1) (round s1) (currentKey s1)
                                    (promptTime s1) (reactionTimes s1)
                                    (resultsLog s1 ++ [Oops (round s) pressed key reactionTime])
                                    (statsFile s1) (pendingRounds s1) in
                  let s3 := saveStats s2 (writeOk e) in
                  Running (mkState (stats s3) (round s3) None (promptTime s3)
                                   (reactionTimes s3) (resultsLog s3) (statsFile s3)
                                   (S (pendingRounds s3)))
              end
        end
    end.

(** The event loop: a key press runs the listener, an elapsed timer runs
    [nextRound]. *)
Definition step (s : State) (ev : Event) : Outcome :=
  match ev with
  | Keypress e => onKeypress s e
  | TimerFired random time =>
      match pendingRounds s with
      | O => Running s
      | S n =>
          nextRound (mkState (stats s) (round s) (currentKey s) (promptTime s)
                             (reactionTimes s) (resultsLog s) (statsFile s) n)
                    random time
      end
  end.

Fixpoint run (s : State) (evs : list Event) : Outcome :=
  match evs with
  | [] => Running s
  | ev :: evs' =>
      match step s ev with
      | Running s' => run s' evs'
      | stopped => stopped
      end
  end.

(** Lines 18-46 and 295-296: the script's top level up to the first prompt. *)
Definition boot (f : FileContent) (random : Q) (time : Z) : option Outcome :=
  match loadStats f with
  | None => None
  | Some o => Some (nextRound (mkState o 0 None None [] [] f O) random time)
  end.

(** The press a key event is scored as, in a given state: the prompted key,
    what was pressed and the reaction time. *)
Record Scored := mkScored {
  prompted : string;
  pressedStr : option string;
  reaction : Z
}.

Definition isCorrect (p : Scored) : bool :=
  bool_decide (pressedStr p = Some (prompted p)).

Definition scoredBy (s : State) (ev : Event) : option Scored :=
  match ev with
  | Keypress e =>
      if String.eqb (sequence e) ctrlC then None
      else if noCurrentKey (currentKey s) then None
      else
        match currentKey s with
        | Some key =>
            match entries (stats s) !! key with
            | Some _ => Some (mkScored key (str e) (now e - default 0 (promptTime s)))
            | None => None
            end
        | None => None
        end
  | TimerFired _ _ => None
  end.

(** The presses scored along a run, oldest first. *)
Fixpoint scoredPresses (s : State) (evs : list Event) : list Scored :=
  match evs with
  | [] => []
  | ev :: evs' =>
      let here := match scoredBy s ev with Some p => [p] | None => [] end in
      match step s ev with
      | Running s' => here ++ scoredPresses s' evs'
      | _ => here
      end
  end.

Definition correctTimes (ps : list Scored) : list Z :=
  reaction <$> filter (λ p, isCorrect p = true) ps.

Definition correctTimesOf (key : string) (ps : list Scored) : list Z :=
  reaction <$> filter (λ p, isCorrect p = true ∧ prompted p = key) ps.

(** ** ANSI-aware helpers (lines 61-76)

    A line is the list of its UTF-16 code units. *)

Definition ESC : N := 27%N.
Definition LBRACKET : N := 91%N.
Definition LOWER_M : N := 109%N.
Definition SPACE : N := 32%N.
Definition ELLIPSIS : N := 8230%N.

(** The class [[0-9;]]. *)
Definition isParam (c : N) : bool :=
  ((48 <=? c)%N && (c <=? 57)%N) || (c =? 59)%N.

(** The length of the longest run of [[0-9;]] at the start of a line. *)
Fixpoint paramRun (s : list N) : nat :=
  match s with
  | c :: r => if isParam c then S (paramRun r) else O
  | [] => O
  end.

(** The pattern [\x1B\[[0-9;]*m] tried at the start of a line: the length
    of its match.  The greedy run of parameters must be followed by [m]; a
    shorter run never is, since it is followed by a parameter. *)
Definition sgrLength (s : list N) : option nat :=
  match s with
  | e :: b :: r =>
      if (e =? ESC)%N && (b =? LBRACKET)%N then
        match r !! paramRun r with
        | Some m => if (m =? LOWER_M)%N then Some (paramRun r + 3)%nat else None
        | None => None
        end
      else None
  | _ => None
  end.

(** [str.replace(/\x1B\[[0-9;]*m/g, '')]: scanning from the left, a match
    is dropped and the scan goes on behind it; where nothing matches, the
    code unit is kept.  (A match of length [n] at [c :: r] is [c] and the
    first [n - 1] units of [r].) *)
Equations? stripAnsi (s : list N) : list N by wf (length s) lt :=
  stripAnsi [] := [];
  stripAnsi (c :: r) with sgrLength (c :: r) => {
    | Some n := stripAnsi (drop (pred n) r);
    | None := c :: stripAnsi r }.
Proof. all: simpl; try rewrite length_drop; lia. Qed.

(** [str.match(/^((?:\x1B\[[0-9;]*m)+)/)] and [match ? match[0] : ""]: the
    longest run of style sequences at the start, empty when there is none. *)
Equations? ansiPrefix (s : list N) : list N by wf (length s) lt :=
  ansiPrefix [] := [];
  ansiPrefix (c :: r) with sgrLength (c :: r) => {
    | Some n := take n (c :: r) ++ ansiPrefix (drop (pred n) r);
    | None := [] }.
Proof. simpl. rewrite length_drop. lia. Qed.

(** [plain.slice(0, e)]: a negative end counts from the end of the line. *)
Definition slice0 (s : list N) (e : Z) : list N :=
  if e <? 0 then take (Z.to_nat (Z.of_nat (length s) + e)) s
  else take (Z.to_nat e) s.

(** Lines 65-68. *)
Definition padAnsi (str : list N) (width : Z) : list N :=
  let diff := width - Z.of_nat (length (stripAnsi str)) in
  if 0 <? diff then str ++ replicate (Z.to_nat diff) SPACE else str.

(** Lines 70-76. *)
Definition truncateAnsiPreserve (str : list N) (width : Z) : list N :=
  let plain := stripAnsi str in
  if Z.of_nat (length plain) <=? width then str
  else
    let prefix := ansiPrefix str in
    prefix ++ slice0 plain (width - 1) ++ [ELLIPSIS].

(** A green line of fifteen letters, as [chalk.green] writes it. *)
Definition greenLine : list N :=
  [ESC; LBRACKET; 51; 50; LOWER_M]%N ++ replicate 15 97%N
  ++ [ESC; LBRACKET; 51; 57; LOWER_M]%N.

(** ** Rendering (lines 49-58, 95-119, 141-213)

    A screen line is given by the template that produces it and the values
    the template interpolates. *)

Definition leftColumnWidth : Z := 60.
Definition leftColumnHeight : nat := 22.

Definition getRightColumnStart : Z := leftColumnWidth + 2.

(** [columns] is [process.stdout.columns]. *)
Definition getRightColumnWidth (columns : Z) : Z := columns - leftColumnWidth - 1.

Inductive Line :=
  | TitleLine
  | SubtitleLine
  | RuleLine
  | InstructionLine
  | KeysLine
  | ExitLine
  | BlankLine
  | TotalRoundsLine (rounds : Z)
  | GamesPlayedLine (games : Z)
  | AccuracyLine (accuracy : Binary64.Shown)
  | RollingAvgLine (avg : Display)
  | SummaryTitleLine
  | TableHeaderLine
  | TableRowLine (key : string) (att suc err : Z) (avg : Binary64.Shown)
                 (best worst : TimeSlot)
  | RoundLine (rounds : Z)
  | PressLine (key : string)
  | PreparingLine
  | TypeAnswerLine.

(** Lines 105-116: the table row of a key; the average is the binary64
    quotient, printed by [toFixed(1)]. *)
Definition tableRow (key : string) (s : KeyStat) : Line :=
  let avg := if 0 <? successes s
             then Binary64.toFixed1
                    (Binary64.ofZ (totalTime s) / Binary64.ofZ (successes s))%float
             else Binary64.NotAvailable in
  TableRowLine key (attempts s) (successes s) (errors s) avg (bestTime s) (worstTime s).

(** Lines 95-119. *)
Definition getPerKeySummary (o : Stats) : option (list Line) :=
  match mapM (λ key, tableRow key <$> entries o !! key) keys with
  | None => None
  | Some rows => Some (TableHeaderLine :: rows)
  end.

(** [while (lines.length < n) lines.push(blank)] *)
Definition padLines (n : nat) (lines : list Line) : list Line :=
  lines ++ replicate (n - length lines) BlankLine.

(** Lines 142-189: [leftLines] when the loop of line 192 starts. *)
Definition leftLines (s : State) : option (list Line) :=
  match meta (stats s), Binary64.getOverallAccuracy (stats s),
        getPerKeySummary (stats s) with
  | Some games, Some accuracy, Some summaryLines =>
      let lines :=
        [TitleLine; SubtitleLine; RuleLine; InstructionLine; KeysLine; ExitLine;
         BlankLine;
         TotalRoundsLine (round s); GamesPlayedLine games; AccuracyLine accuracy;
         RollingAvgLine (getRollingAvg (reactionTimes s));
         BlankLine;
         SummaryTitleLine] ++ summaryLines in
      let lines := padLines (leftColumnHeight - 4) lines in
      let lines := if (leftColumnHeight - 4 <? length lines)%nat
                   then take (leftColumnHeight - 4) lines else lines in
      let lines :=
        lines ++ (if noCurrentKey (currentKey s) then [PreparingLine; BlankLine]
                  else [RoundLine (round s); PressLine (default "" (currentKey s))]) in
      let lines := lines ++ [BlankLine; TypeAnswerLine] in
      Some (padLines leftColumnHeight lines)
  | _, _, _ => None
  end.

(** Lines 192-194: the rows written to the left column. *)
Definition leftRows (s : State) : option (list Line) :=
  match leftLines s with
  | None => None
  | Some lines =>
      Some ((λ i, default BlankLine (lines !! i)) <$> seq 0 leftColumnHeight)
  end.

(** [array.slice(start)] *)
Definition sliceFrom {A} (start : Z) (l : list A) : list A :=
  let len := Z.of_nat (length l) in
  if start <? 0 then drop (Z.to_nat (Z.max (len + start) 0)) l
  else drop (Z.to_nat (Z.min start len)) l.

(** Lines 204-205: the entries of the log shown in the right column, for a
    terminal of [rows] rows. *)
Definition logSlice (rows : Z) (log : list LogEntry) : list LogEntry :=
  let availableLogLines := rows - 2 in
  sliceFrom (- availableLogLines) log.

(** ** Vocabulary of the specification *)

(** Every tracked key has its record in the store. *)
Definition tracked (o : Stats) : Prop :=
  Forall (λ key, is_Some (entries o !! key)) keys.

Definition statOf (o : Stats) (key : string) : KeyStat :=
  default freshKeyStat (entries o !! key).



(** A store with two used keys, for the examples. *)
Definition sampleStats : Stats :=
  mkStats (Some 2)
    (<["q" := mkKeyStat 3 2 450 1 (Ms 200) (Ms 250)]>
       (<["e" := mkKeyStat 5 4 1000 1 (Ms 180) (Ms 400)]>
          (entries (fold_left initKey keys (ensureMeta emptyObject))))).

(** The specification's [avgReactionTime] and [weight] of a per-key
    record. *)
Definition avgReactionTime (s : KeyStat) : Q :=
  if decide (0 < successes s)
  then (inject_Z (totalTime s) / inject_Z (successes s))%Q
  else 500%Q.

Definition weight (s : KeyStat) : Q :=
  (avgReactionTime s + inject_Z (errors s) * 100 + 100)%Q.

(** The weights of the tracked keys, in canonical order, and the value
    [r = Math.random() * totalWeight] drawn from them. *)
Definition weightsOf (o : Stats) : list Q :=
  (λ key, weight (statOf o key)) <$> keys.

Definition totalWeight (o : Stats) : Q := fold_left Qplus (weightsOf o) 0%Q.

Definition draw (o : Stats) (random : Q) : Q := (random * totalWeight o)%Q.

(** The running remainder after subtracting the weights up to index [i]
    from [r], and the prefix sum of the weights through index [i]. *)
Fixpoint remainder (r : Q) (ws : list Q) (i : nat) : Q :=
  match ws with
  | [] => r
  | w :: ws' =>
      match i with
      | O => (r - w)%Q
      | S i' => remainder (r - w)%Q ws' i'
      end
  end.


(** The specification's [recordAttempt]: [attempts] always grows; a correct
    press adds a success, its time, and updates best and worst by min and
    max seeded with [null]; an incorrect press adds an error. *)
Definition seedMin (t : Z) (best : TimeSlot) : TimeSlot :=
  match best with
  | Null => Ms t
  | Ms b => Ms (Z.min b t)
  | Undefined => Undefined
  end.

Definition seedMax (t : Z) (worst : TimeSlot) : TimeSlot :=
  match worst with
  | Null => Ms t
  | Ms w => Ms (Z.max w t)
  | Undefined => Undefined
  end.

Definition recordAttempt (k : KeyStat) (correct : bool) (reactionMs : Z) : KeyStat :=
  if correct then
    mkKeyStat (attempts k + 1) (successes k + 1) (totalTime k + reactionMs) (errors k)
              (seedMin reactionMs (bestTime k)) (seedMax reactionMs (worstTime k))
  else
    mkKeyStat (attempts k + 1) (successes k) (totalTime k) (errors k + 1)
              (bestTime k) (worstTime k).

(** Minimum and maximum of a list of times, [Null] for the empty list. *)
Definition minimum (ts : list Z) : TimeSlot :=
  match ts with
  | [] => Null
  | t :: ts' => Ms (foldr Z.min t ts')
  end.

Definition maximum (ts : list Z) : TimeSlot :=
  match ts with
  | [] => Null
  | t :: ts' => Ms (foldr Z.max t ts')
  end.

(** The last [n] elements of a list. *)
Definition lastN {A} (n : nat) (l : list A) : list A := drop (length l - n) l.

(** The all-zero store. *)
Definition defaultStats : Stats :=
  mkStats (Some 0) (list_to_map ((λ key, (key, freshKeyStat)) <$> keys)).

(** What the script's top level establishes and every handler keeps:
    [meta] and every tracked key are present, with best and worst times that
    are [null] or numbers. *)
Definition keyOk (o : Stats) (key : string) : Prop :=
  ∃ k, entries o !! key = Some k ∧ bestTime k ≠ Undefined ∧ worstTime k ≠ Undefined.

Definition storeOk (o : Stats) : Prop :=
  is_Some (meta o) ∧ Forall (keyOk o) keys.

(** The outcomes the program can reach: the one of its start, and the one
    of any event handled while it is running. *)
Inductive reaches : Outcome → Prop :=
  | reaches_boot f random time out :
      boot f random time = Some out → reaches out
  | reaches_step s ev :
      reaches (Running s) → reaches (step s ev).

(** A correct press of the prompted key with the given reaction time,
    followed by the timer that starts the next round prompting ["q"]. *)
Definition pressQ (promptedAt reactionMs : Z) : list Event :=
  [Keypress (mkKeyEvent (Some "q"%string) "q" (promptedAt + reactionMs) true);
   TimerFired 0 (promptedAt + reactionMs + 100)].

(** The start on a missing stats file with ["q"] prompted at time 0. *)
Definition freshStart : State :=
  mkState defaultStats 1 (Some "q"%string) (Some 0) [] [] Missing O.

(** *** Styled text

    What [chalk] writes: plain text without the escape character, between
    style sequences. *)
Inductive Segment :=
  | Text (t : list N)
  | Style (params : list N).

Definition renderSegment (seg : Segment) : list N :=
  match seg with
  | Text t => t
  | Style params => ESC :: LBRACKET :: params ++ [LOWER_M]
  end.

Definition renderSegments (segs : list Segment) : list N :=
  concat (renderSegment <$> segs).

Definition textOf (seg : Segment) : list N :=
  match seg with
  | Text t => t
  | Style _ => []
  end.

Definition plainText (segs : list Segment) : list N := concat (textOf <$> segs).

Definition wellFormed (seg : Segment) : Prop :=
  match seg with
  | Text t => ESC ∉ t
  | Style params => Forall (λ c, isParam c = true) params
  end.

(** The presses scored for a key, correct or not. *)
Definition pressesOf (key : string) (ps : list Scored) : list Scored :=
  filter (λ p, prompted p = key) ps.

(** The program awaits a press of a tracked key, with no timer pending, or
    it is between two rounds, with the timer of the next one pending. *)
Definition awaiting (s : State) : Prop :=
  (∃ key, currentKey s = Some key ∧ key ∈ keys) ∧ is_Some (promptTime s)
  ∧ pendingRounds s = 0%nat.

Definition betweenRounds (s : State) : Prop :=
  currentKey s = None ∧ pendingRounds s = 1%nat.

(** The per-key counters are consistent: no negative counter, and every
    attempt is a success or an error. *)
Definition consistent (k : KeyStat) : Prop :=
  0 ≤ successes k ∧ 0 ≤ errors k ∧ attempts k = successes k + errors k.

(** How the presses [ps] move the counters of [key] from [k0] to [k']. *)
Definition counted (key : string) (ps : list Scored) (k0 k' : KeyStat) : Prop :=
  let presses := Z.of_nat (length (pressesOf key ps)) in
  let correct := Z.of_nat (length (correctTimesOf key ps)) in
  attempts k' = attempts k0 + presses
  ∧ successes k' = successes k0 + correct
  ∧ errors k' = errors k0 + (presses - correct)
  ∧ totalTime k' = totalTime k0 + foldr Z.add 0 (correctTimesOf key ps).

(** The same state with another stats file, and an outcome with the stats
    file of its state replaced. *)
Definition withStatsFile (f : FileContent) (s : State) : State :=
  mkState (stats s) (round s) (currentKey s) (promptTime s) (reactionTimes s)
          (resultsLog s) f (pendingRounds s).

Definition mapOutcome (g : State → State) (r : Outcome) : Outcome :=
  match r with
  | Running s => Running (g s)
  | Exited s => Exited (g s)
  | Crashed s => Crashed (g s)
  end.

(** The record the start-up code leaves for a tracked key, given what the
    file holds for it. *)
Definition normalised (k : option KeyStat) : KeyStat :=
  match k with
  | None => freshKeyStat
  | Some s => mkKeyStat (attempts s) (successes s) (totalTime s) (errors s)
                        (nullIfUndefined (bestTime s)) (nullIfUndefined (worstTime s))
  end.


(** The rounds counted so far are the logged ones, plus the one awaiting
    its press. *)
Definition roundsCounted (s : State) : Prop :=
  (awaiting s ∧ round s = Z.of_nat (length (resultsLog s)) + 1)
  ∨ (betweenRounds s ∧ round s = Z.of_nat (length (resultsLog s))).


(** The log line a scored press leaves in a round, if it leaves one. *)
Definition logEntryOf (roundNo : Z) (p : Scored) : option LogEntry :=
  match pressedStr p with
  | None => None
  | Some pressed =>
      Some (if isCorrect p then Correct roundNo (prompted p) (reaction p)
            else Oops roundNo pressed (prompted p) (reaction p))
  end.

(** The scored presses that carry a character. *)
Definition withCharacter (ps : list Scored) : list Scored :=
  filter (λ p, is_Some (pressedStr p)) ps.





(** * Properties *)

(** ** Rounding *)

Lemma roundTenths_comp (x y : Q) : (x == y)%Q → roundTenths x = roundTenths y.
Proof.
  intros E. unfold roundTenths. apply Qfloor_comp. by rewrite E.
Qed.

Lemma toFixed1_comp (x y : Q) : (x == y)%Q → toFixed1 x = toFixed1 y.
Proof.
  intros E. unfold toFixed1.
  assert (Qle_bool 0 x = Qle_bool 0 y) as -> by (by rewrite E).
  destruct (Qle_bool 0 y).
  - by apply roundTenths_comp.
  - f_equal. apply roundTenths_comp. by rewrite E.
Qed.

Lemma roundTenths_nearest (x : Q) :
  (x - (1 # 20) < roundTenths x # 10 ∧ roundTenths x # 10 <= x + (1 # 20))%Q.
Proof.
  unfold roundTenths.
  pose proof (Qfloor_le (x * 10 + (1 # 2))) as Hlo.
  pose proof (Qlt_floor (x * 10 + (1 # 2))) as Hhi.
  set (n := Qfloor (x * 10 + (1 # 2))) in *.
  rewrite inject_Z_plus in Hhi.
  assert ((n # 10) == inject_Z n * (1 # 10))%Q as ->.
  { unfold Qeq, inject_Z, Qmult; simpl. lia. }
  change (inject_Z 1) with 1%Q in Hhi.
  split; lra.
Qed.

(** [toFixed(1)] prints a tenth nearest to its argument. *)
Lemma toFixed1_nearest (x : Q) : (Qabs ((toFixed1 x # 10) - x) <= 1 # 20)%Q.
Proof.
  apply Qabs_Qle_condition. unfold toFixed1.
  destruct (Qle_bool 0 x).
  - destruct (roundTenths_nearest x). split; lra.
  - destruct (roundTenths_nearest (- x)) as [H1 H2].
    assert ((- roundTenths (- x) # 10) == - (roundTenths (- x) # 10))%Q as ->.
    { unfold Qeq, Qopp; simpl. lia. }
    split; lra.
Qed.

(** ** Overall accuracy *)

Lemma sumTotals_spec (o : Stats) (ks : list string) (a s : Z) :
  Forall (λ key, is_Some (entries o !! key)) ks →
  sumTotals o ks a s =
    Some (a + foldr Z.add 0 ((λ key, attempts (statOf o key)) <$> ks),
          s + foldr Z.add 0 ((λ key, successes (statOf o key)) <$> ks)).
Proof.
  intros Hks. revert a s.
  induction Hks as [| key ks [k Hk] _ IH]; intros a s; simpl.
  - by rewrite !Z.add_0_r.
  - assert (statOf o key = k) as -> by (unfold statOf; by rewrite Hk).
    rewrite Hk, IH. f_equal. f_equal; symmetry; apply Z.add_assoc.
Qed.



(** ** Key weights *)

Lemma getKeyWeight_weight (o : Stats) (key : string) (s : KeyStat) :
  entries o !! key = Some s → getKeyWeight o key = Some (weight s).
Proof.
  intros Hs. unfold getKeyWeight, weight, avgReactionTime. rewrite Hs.
  destruct (Z.ltb_spec 0 (successes s)); case_decide; (done || lia).
Qed.



(** ** Weighted selection *)

Lemma mapM_getKeyWeight (o : Stats) (ks : list string) :
  Forall (λ key, is_Some (entries o !! key)) ks →
  mapM (getKeyWeight o) ks = Some ((λ key, weight (statOf o key)) <$> ks).
Proof.
  induction 1 as [| key ks [s Hs] _ IH]; [done |].
  cbn. rewrite (getKeyWeight_weight o key s Hs). cbn.
  rewrite IH. cbn. unfold statOf. by rewrite Hs.
Qed.



(** What the loop of [chooseNextKey] returns: the first index at which the
    running remainder is not positive, or nothing when it stays positive. *)
Lemma walk_spec (ks : list string) (ws : list Q) (r : Q) :
  length ks = length ws →
  match walk ks ws r with
  | Some key =>
      ∃ i, ks !! i = Some key ∧ (remainder r ws i <= 0)%Q
           ∧ ∀ j, (j < i)%nat → (0 < remainder r ws j)%Q
  | None => ∀ j, (j < length ws)%nat → (0 < remainder r ws j)%Q
  end.
Proof.
  revert ws r. induction ks as [| key ks IH]; intros [| w ws] r Hlen; try done.
  - simpl. intros j Hj. lia.
  - simpl. destruct (Qle_bool (r - w) 0) eqn:Hle.
    + exists 0%nat. split; [done |]. split; [by apply Qle_bool_iff | intros; lia].
    + assert (0 < r - w)%Q as Hpos.
      { apply Qnot_le_lt. intros Hc. apply Qle_bool_iff in Hc. congruence. }
      injection Hlen as Hlen. specialize (IH ws (r - w)%Q Hlen).
      destruct (walk ks ws (r - w)).
      * destruct IH as (i & Hi & Hrem & Hbefore). exists (S i).
        split; [done |]. split; [done |].
        intros [| j] Hj; [done |]. apply Hbefore. lia.
      * intros [| j] Hj; [done |]. apply IH. simpl in Hj. lia.
Qed.

Lemma walk_elem_of (ks : list string) (ws : list Q) (r : Q) (key : string) :
  walk ks ws r = Some key → key ∈ ks.
Proof.
  revert ws r. induction ks as [| k ks IH]; intros [| w ws] r; simpl; try done.
  destruct (Qle_bool (r - w) 0).
  - intros [= ->]. apply list_elem_of_here.
  - intros Hw. apply list_elem_of_further. by eapply IH.
Qed.



(** The two ways [chooseNextKey] returns: from inside its loop, at an index
    where the remainder is not positive, or after it with the last key. *)
Lemma chooseNextKey_cases (o : Stats) (random : Q) :
  tracked o →
  ∃ key,
    chooseNextKey o random = Some key ∧ key ∈ keys
    ∧ ((∃ i, keys !! i = Some key
             ∧ (remainder (draw o random) (weightsOf o) i <= 0)%Q)
       ∨ key = "z"%string).
Proof.
  intros Ht. unfold chooseNextKey. rewrite (mapM_getKeyWeight o keys Ht).
  change ((λ key, weight (statOf o key)) <$> keys) with (weightsOf o).
  change (random * fold_left Qplus (weightsOf o) 0)%Q with (draw o random).
  pose proof (walk_spec keys (weightsOf o) (draw o random)) as Hwalk.
  assert (length keys = length (weightsOf o)) as Hlen
    by (unfold weightsOf; by rewrite length_fmap).
  specialize (Hwalk Hlen).
  destruct (walk keys (weightsOf o) (draw o random)) as [key |] eqn:Hw.
  - exists key. split; [done |]. split; [by eapply walk_elem_of |].
    left. destruct Hwalk as (i & Hi & Hrem & _). by exists i.
  - exists "z"%string. split; [done |]. split; [| by right].
    apply (bool_decide_unpack _). by vm_compute.
Qed.



(** ** The key-press handler *)

Lemma ctrlC_eqb_false (seq : string) : seq ≠ ctrlC → String.eqb seq ctrlC = false.
Proof. intros H. by apply String.eqb_neq. Qed.

Lemma elem_of_keys_nonempty (key : string) : key ∈ keys → String.eqb key "" = false.
Proof.
  intros H. apply String.eqb_neq. intros ->. revert H.
  apply (bool_decide_eq_false_1 _). by vm_compute.
Qed.

(** C2. While no key is prompted ([currentKey] is [null]), a key press
    other than the interrupt leaves the whole state as it is: statistics,
    meta counter, rolling window, log, stats file and timers; the program
    keeps running and nothing is scored. *)
Theorem keypress_idle_noop (s : State) (e : KeyEvent) :
  currentKey s = None → sequence e ≠ ctrlC →
  onKeypress s e = Running s
  ∧ step s (Keypress e) = Running s
  ∧ scoredBy s (Keypress e) = None.
Proof.
  intros Hidle Hseq. simpl. unfold onKeypress.
  rewrite (ctrlC_eqb_false _ Hseq), Hidle. simpl. done.
Qed.

Lemma keypress_idle_noop_witness :
  let s := mkState sampleStats 7 None (Some 1000) [120; 90] [Correct 7 "q" 90]
                   (Object sampleStats) 1 in
  let e := mkKeyEvent (Some "q"%string) "q" 1050 true in
  onKeypress s e = Running s ∧ step s (Keypress e) = Running s
  ∧ scoredBy s (Keypress e) = None.
Proof.
  intros s e. apply (keypress_idle_noop s e); [done |].
  apply (bool_decide_eq_false_1 _). by vm_compute.
Defined.

Lemma updateBest_seedMin (t : Z) (best : TimeSlot) : updateBest t best = seedMin t best.
Proof.
  destruct best as [| | b]; simpl; try done.
  destruct (Z.ltb_spec t b); f_equal; lia.
Qed.

Lemma updateWorst_seedMax (t : Z) (worst : TimeSlot) :
  updateWorst t worst = seedMax t worst.
Proof.
  destruct worst as [| | w]; simpl; try done.
  destruct (Z.ltb_spec w t); f_equal; lia.
Qed.

(** The effect of one event on the store and on the rolling window, by the
    press it is scored as. *)
Lemma step_effect (s : State) (ev : Event) :
  let s' := stateOf (step s ev) in
  match scoredBy s ev with
  | Some p =>
      ∃ k0, currentKey s = Some (prompted p)
        ∧ entries (stats s) !! prompted p = Some k0
        ∧ entries (stats s')
          = <[prompted p := recordAttempt k0 (isCorrect p) (reaction p)]> (entries (stats s))
        ∧ meta (stats s') = meta (stats s)
        ∧ reactionTimes s'
          = (if isCorrect p then pushReactionTime (reaction p) (reactionTimes s)
             else reactionTimes s)
  | None =>
      entries (stats s') = entries (stats s) ∧ reactionTimes s' = reactionTimes s
  end.
Proof.
  destruct ev as [e | random time]; simpl.
  - unfold onKeypress, displayFinalStats, saveStats.
    destruct (String.eqb (sequence e) ctrlC).
    { destruct (meta (stats s)); [destruct (writeOk e) |]; done. }
    destruct (currentKey s) as [key |] eqn:Hkey; simpl; [| done].
    destruct (String.eqb key ""); [done |].
    destruct (entries (stats s) !! key) as [k0 |] eqn:Hk0; [| done].
    exists k0. split; [done |]. split; [done |].
    unfold isCorrect, recordAttempt. simpl.
    destruct (decide (str e = Some key)) as [Heq | Hne].
    + rewrite (bool_decide_eq_true_2 _ Heq).
      rewrite updateBest_seedMin, updateWorst_seedMax.
      destruct (writeOk e); done.
    + rewrite (bool_decide_eq_false_2 _ Hne).
      destruct (str e); [destruct (writeOk e) |]; done.
  - destruct (pendingRounds s); [done |]. unfold nextRound. simpl.
    destruct (chooseNextKey (stats s) random); done.
Qed.

(** C5. While a key is prompted, a press of anything else adds one attempt
    and one error to the prompted key and leaves its successes, total time,
    best and worst times as they were; no other record of the store changes,
    in particular not the one of the key that was pressed, nor does the
    meta counter. *)
Theorem incorrect_press_charges_prompted
    (s : State) (e : KeyEvent) (key : string) (k0 : KeyStat) :
  currentKey s = Some key → key ∈ keys →
  entries (stats s) !! key = Some k0 →
  sequence e ≠ ctrlC → str e ≠ Some key →
  let s' := stateOf (onKeypress s e) in
  entries (stats s') !! key
    = Some (mkKeyStat (attempts k0 + 1) (successes k0) (totalTime k0)
                      (errors k0 + 1) (bestTime k0) (worstTime k0))
  ∧ (∀ other, other ≠ key → entries (stats s') !! other = entries (stats s) !! other)
  ∧ (∀ pressed, str e = Some pressed →
       entries (stats s') !! pressed = entries (stats s) !! pressed)
  ∧ meta (stats s') = meta (stats s)
  ∧ reactionTimes s' = reactionTimes s.
Proof.
  intros Hkey Hin Hk0 Hseq Hne s'.
  pose proof (step_effect s (Keypress e)) as Heff. simpl in Heff.
  rewrite (ctrlC_eqb_false _ Hseq), Hkey in Heff. simpl in Heff.
  rewrite (elem_of_keys_nonempty key Hin), Hk0 in Heff.
  destruct Heff as (k & _ & Hk & Hentries & Hmeta & Htimes). simpl in *.
  assert (k = k0) as -> by congruence.
  unfold isCorrect in *. simpl in *.
  rewrite (bool_decide_eq_false_2 _ Hne) in Hentries, Htimes.
  fold s' in Hentries, Hmeta, Htimes. rewrite Hentries.
  split; [by rewrite lookup_insert_eq |].
  split; [by intros other Ho; rewrite lookup_insert_ne |].
  split; [| done].
  intros pressed Hp. rewrite lookup_insert_ne; [done |]. congruence.
Qed.

Lemma incorrect_press_charges_prompted_witness :
  let s := mkState sampleStats 7 (Some "q"%string) (Some 1000) [120; 90] []
                   (Object sampleStats) 0 in
  let s' := stateOf (onKeypress s (mkKeyEvent (Some "e"%string) "e" 1300 true)) in
  entries (stats s') !! "q"%string = Some (mkKeyStat 4 2 450 2 (Ms 200) (Ms 250))
  ∧ entries (stats s') !! "e"%string = Some (mkKeyStat 5 4 1000 1 (Ms 180) (Ms 400)).
Proof.
  intros s s'.
  destruct (incorrect_press_charges_prompted s
              (mkKeyEvent (Some "e"%string) "e" 1300 true) "q"
              (mkKeyStat 3 2 450 1 (Ms 200) (Ms 250)))
    as (Hq & _ & Hpressed & _).
  - reflexivity.
  - apply (bool_decide_unpack _). by vm_compute.
  - reflexivity.
  - apply (bool_decide_eq_false_1 _). by vm_compute.
  - discriminate.
  - split; [exact Hq |]. unfold s'.
    rewrite (Hpressed "e"%string eq_refl). by vm_compute.
Defined.

(** ** The rolling window *)

Lemma lastN_short {A} (n : nat) (l : list A) : (length l ≤ n)%nat → lastN n l = l.
Proof.
  intros H. unfold lastN. by replace (length l - n)%nat with 0%nat by lia.
Qed.

Lemma length_lastN {A} (n : nat) (l : list A) : (length (lastN n l) ≤ n)%nat.
Proof. unfold lastN. rewrite length_drop. lia. Qed.

Lemma lastN_app_lastN {A} (n : nat) (a b : list A) :
  lastN n (lastN n a ++ b) = lastN n (a ++ b).
Proof.
  destruct (decide (length a ≤ n)%nat) as [Hle | Hgt].
  - by rewrite (lastN_short n a Hle).
  - unfold lastN. rewrite !length_app, length_drop, !drop_app, drop_drop, length_drop.
    f_equal; f_equal; lia.
Qed.

Lemma pushReactionTime_lastN (t : Z) (times : list Z) :
  (length times ≤ 4)%nat → pushReactionTime t times = lastN 4 (times ++ [t]).
Proof.
  intros Hlen. unfold pushReactionTime, lastN. rewrite length_app. simpl.
  destruct (Nat.ltb_spec 4 (length times + 1)).
  - replace (length times + 1 - 4)%nat with 1%nat by lia.
    by destruct times.
  - by replace (length times + 1 - 4)%nat with 0%nat by lia.
Qed.

Lemma correctTimes_app (ps qs : list Scored) :
  correctTimes (ps ++ qs) = correctTimes ps ++ correctTimes qs.
Proof. unfold correctTimes. by rewrite filter_app, fmap_app. Qed.

Lemma correctTimes_here (s : State) (ev : Event) :
  (length (reactionTimes s) ≤ 4)%nat →
  reactionTimes (stateOf (step s ev))
  = lastN 4 (reactionTimes s
             ++ correctTimes (match scoredBy s ev with Some p => [p] | None => [] end)).
Proof.
  intros Hlen. pose proof (step_effect s ev) as Heff. simpl in Heff.
  destruct (scoredBy s ev) as [p |].
  - destruct Heff as (k0 & _ & _ & _ & _ & ->).
    unfold correctTimes. rewrite filter_cons, filter_nil.
    destruct (isCorrect p) eqn:Hp.
    + rewrite decide_True by done. simpl. by apply pushReactionTime_lastN.
    + rewrite decide_False by done. simpl.
      by rewrite app_nil_r, lastN_short.
  - destruct Heff as [_ ->]. unfold correctTimes. simpl.
    by rewrite app_nil_r, lastN_short.
Qed.

Lemma run_window (s : State) (evs : list Event) :
  (length (reactionTimes s) ≤ 4)%nat →
  reactionTimes (stateOf (run s evs))
  = lastN 4 (reactionTimes s ++ correctTimes (scoredPresses s evs)).
Proof.
  revert s. induction evs as [| ev evs IH]; intros s Hlen.
  - simpl. unfold correctTimes. simpl. by rewrite app_nil_r, lastN_short.
  - pose proof (correctTimes_here s ev Hlen) as Hhere. simpl.
    destruct (step s ev) as [s' | s' | s']; simpl in *; try done.
    rewrite IH by (rewrite Hhere; apply length_lastN).
    by rewrite Hhere, correctTimes_app, app_assoc, lastN_app_lastN.
Qed.

(** C6. After any sequence of events, the rolling window holds the last four
    reaction times of the correct presses scored so far, oldest first, and so
    never more than four entries; after five correct presses with times
    100, 200, 300, 400 and 500 it is [200; 300; 400; 500] and the rolling
    average prints as 350.0. *)
Theorem rolling_window_last4 (s : State) (evs : list Event) :
  reactionTimes s = [] →
  let s' := stateOf (run s evs) in
  let times := correctTimes (scoredPresses s evs) in
  reactionTimes s' = lastN 4 times
  ∧ (length (reactionTimes s') ≤ 4)%nat
  ∧ (times = [100; 200; 300; 400; 500] →
     reactionTimes s' = [200; 300; 400; 500]
     ∧ getRollingAvg (reactionTimes s') = Fixed1 3500
     ∧ displayValue (getRollingAvg (reactionTimes s')) = Some (3500 # 10)%Q).
Proof.
  intros Hempty s' times.
  assert (reactionTimes s' = lastN 4 times) as Hwin.
  { unfold s'. rewrite run_window by (rewrite Hempty; simpl; lia).
    by rewrite Hempty. }
  split; [done |]. split; [rewrite Hwin; apply length_lastN |].
  intros Htimes. rewrite Hwin, Htimes. by vm_compute.
Qed.

Lemma boot_freshStart : boot Missing 0 0 = Some (Running freshStart).
Proof. by vm_compute. Qed.

Lemma rolling_window_last4_witness :
  let evs := pressQ 0 100 ++ pressQ 200 200 ++ pressQ 500 300
             ++ pressQ 900 400 ++ pressQ 1400 500 in
  correctTimes (scoredPresses freshStart evs) = [100; 200; 300; 400; 500]
  ∧ reactionTimes (stateOf (run freshStart evs)) = [200; 300; 400; 500]
  ∧ getRollingAvg (reactionTimes (stateOf (run freshStart evs))) = Fixed1 3500.
Proof.
  intros evs.
  assert (correctTimes (scoredPresses freshStart evs) = [100; 200; 300; 400; 500])
    as Htimes by (by vm_compute).
  split; [exact Htimes |].
  destruct (rolling_window_last4 freshStart evs eq_refl) as (_ & _ & H).
  destruct (H Htimes) as (Hwin & Havg & _). by split.
Defined.

(** ** Best and worst times *)

Lemma foldr_min_seed (ts : list Z) (m a : Z) :
  foldr Z.min (Z.min m a) ts = Z.min a (foldr Z.min m ts).
Proof. induction ts as [| b ts IH]; simpl; [lia |]. rewrite IH. lia. Qed.

Lemma foldr_max_seed (ts : list Z) (m a : Z) :
  foldr Z.max (Z.max m a) ts = Z.max a (foldr Z.max m ts).
Proof. induction ts as [| b ts IH]; simpl; [lia |]. rewrite IH. lia. Qed.

Lemma foldl_seedMin_Ms (ts : list Z) (m : Z) :
  foldl (λ b t, seedMin t b) (Ms m) ts = Ms (foldr Z.min m ts).
Proof.
  revert m. induction ts as [| a ts IH]; intros m; simpl; [done |].
  by rewrite IH, foldr_min_seed.
Qed.

Lemma foldl_seedMax_Ms (ts : list Z) (m : Z) :
  foldl (λ w t, seedMax t w) (Ms m) ts = Ms (foldr Z.max m ts).
Proof.
  revert m. induction ts as [| a ts IH]; intros m; simpl; [done |].
  by rewrite IH, foldr_max_seed.
Qed.

Lemma foldl_seedMin_Null (ts : list Z) :
  foldl (λ b t, seedMin t b) Null ts = minimum ts.
Proof. destruct ts as [| t ts]; [done |]. simpl. apply foldl_seedMin_Ms. Qed.

Lemma foldl_seedMax_Null (ts : list Z) :
  foldl (λ w t, seedMax t w) Null ts = maximum ts.
Proof. destruct ts as [| t ts]; [done |]. simpl. apply foldl_seedMax_Ms. Qed.

Lemma foldr_min_least (ts : list Z) (m : Z) :
  foldr Z.min m ts ∈ m :: ts ∧ ∀ t, t ∈ m :: ts → foldr Z.min m ts ≤ t.
Proof.
  induction ts as [| a ts [Hin Hle]]; simpl.
  - split; [apply list_elem_of_here |]. intros t Ht. apply list_elem_of_singleton in Ht. lia.
  - split.
    + destruct (Z.min_spec a (foldr Z.min m ts)) as [[_ ->] | [_ ->]].
      * apply list_elem_of_further, list_elem_of_here.
      * apply elem_of_cons in Hin as [-> | Hin];
          [apply list_elem_of_here | by do 2 apply list_elem_of_further].
    + intros t Ht. apply elem_of_cons in Ht as [-> | Ht].
      * specialize (Hle m (list_elem_of_here _ _)). lia.
      * apply elem_of_cons in Ht as [-> | Ht]; [lia |].
        specialize (Hle t (list_elem_of_further _ _ _ Ht)). lia.
Qed.

Lemma foldr_max_greatest (ts : list Z) (m : Z) :
  foldr Z.max m ts ∈ m :: ts ∧ ∀ t, t ∈ m :: ts → t ≤ foldr Z.max m ts.
Proof.
  induction ts as [| a ts [Hin Hle]]; simpl.
  - split; [apply list_elem_of_here |]. intros t Ht. apply list_elem_of_singleton in Ht. lia.
  - split.
    + destruct (Z.max_spec a (foldr Z.max m ts)) as [[_ ->] | [_ ->]].
      * apply elem_of_cons in Hin as [-> | Hin];
          [apply list_elem_of_here | by do 2 apply list_elem_of_further].
      * apply list_elem_of_further, list_elem_of_here.
    + intros t Ht. apply elem_of_cons in Ht as [-> | Ht].
      * specialize (Hle m (list_elem_of_here _ _)). lia.
      * apply elem_of_cons in Ht as [-> | Ht]; [lia |].
        specialize (Hle t (list_elem_of_further _ _ _ Ht)). lia.
Qed.

Lemma correctTimesOf_app (key : string) (ps qs : list Scored) :
  correctTimesOf key (ps ++ qs) = correctTimesOf key ps ++ correctTimesOf key qs.
Proof. unfold correctTimesOf. by rewrite filter_app, fmap_app. Qed.

(** One event folds the correct presses of [key] it scores into the key's
    best and worst times. *)
Lemma step_best_worst (s : State) (ev : Event) (key : string) (k0 : KeyStat) :
  entries (stats s) !! key = Some k0 →
  let ts := correctTimesOf key (match scoredBy s ev with Some p => [p] | None => [] end) in
  ∃ k', entries (stats (stateOf (step s ev))) !! key = Some k'
    ∧ bestTime k' = foldl (λ b t, seedMin t b) (bestTime k0) ts
    ∧ worstTime k' = foldl (λ w t, seedMax t w) (worstTime k0) ts.
Proof.
  intros Hk0. pose proof (step_effect s ev) as Heff. simpl in Heff.
  unfold correctTimesOf.
  destruct (scoredBy s ev) as [p |].
  - destruct Heff as (k & _ & Hk & -> & _).
    rewrite filter_cons, filter_nil.
    destruct (decide (prompted p = key)) as [<- | Hother].
    + assert (k = k0) as -> by congruence.
      rewrite lookup_insert_eq. eexists. split; [done |].
      unfold recordAttempt. destruct (isCorrect p) eqn:Hp.
      * rewrite decide_True by done. done.
      * rewrite decide_False by (intros [? _]; done). done.
    + rewrite lookup_insert_ne by done. exists k0. split; [done |].
      rewrite decide_False by (intros [_ ?]; done). done.
  - destruct Heff as [-> _]. by exists k0.
Qed.

Lemma run_best_worst (s : State) (evs : list Event) (key : string) (k0 : KeyStat) :
  entries (stats s) !! key = Some k0 →
  let ts := correctTimesOf key (scoredPresses s evs) in
  ∃ k', entries (stats (stateOf (run s evs))) !! key = Some k'
    ∧ bestTime k' = foldl (λ b t, seedMin t b) (bestTime k0) ts
    ∧ worstTime k' = foldl (λ w t, seedMax t w) (worstTime k0) ts.
Proof.
  revert s k0. induction evs as [| ev evs IH]; intros s k0 Hk0.
  - by exists k0.
  - destruct (step_best_worst s ev key k0 Hk0) as (k1 & Hk1 & Hb1 & Hw1). simpl.
    destruct (step s ev) as [s' | s' | s']; simpl in *.
    + destruct (IH s' k1 Hk1) as (k' & Hk' & Hb & Hw). exists k'.
      split; [done |]. rewrite correctTimesOf_app, !foldl_app, <- Hb1, <- Hw1. done.
    + by exists k1.
    + by exists k1.
Qed.

(** C7. From a state in which a key has no best and no worst time yet, after
    any sequence of events the key's best time is the minimum and its worst
    time the maximum of the reaction times of its correct presses (both
    [null] without a correct press); each press updates them by min and max
    seeded with [null]; the best time is never above the worst; the times
    120, 80, 200 give best 80 and worst 200. *)
Theorem best_worst_min_max (s : State) (evs : list Event) (key : string) (k0 : KeyStat) :
  entries (stats s) !! key = Some k0 → bestTime k0 = Null → worstTime k0 = Null →
  let ts := correctTimesOf key (scoredPresses s evs) in
  ∃ k', entries (stats (stateOf (run s evs))) !! key = Some k'
    ∧ bestTime k' = minimum ts ∧ worstTime k' = maximum ts
    ∧ (ts = [] → bestTime k' = Null ∧ worstTime k' = Null)
    ∧ (∀ b, bestTime k' = Ms b → b ∈ ts ∧ ∀ t, t ∈ ts → b ≤ t)
    ∧ (∀ w, worstTime k' = Ms w → w ∈ ts ∧ ∀ t, t ∈ ts → t ≤ w)
    ∧ (∀ b w, bestTime k' = Ms b → worstTime k' = Ms w → b ≤ w)
    ∧ (ts = [120; 80; 200] → bestTime k' = Ms 80 ∧ worstTime k' = Ms 200).
Proof.
  intros Hk0 Hb0 Hw0 ts.
  destruct (run_best_worst s evs key k0 Hk0) as (k' & Hk' & Hb & Hw).
  fold ts in Hb, Hw.
  rewrite Hb0, foldl_seedMin_Null in Hb. rewrite Hw0, foldl_seedMax_Null in Hw.
  exists k'. split; [done |]. split; [done |]. split; [done |].
  rewrite Hb, Hw. clearbody ts.
  split; [by intros -> |].
  destruct ts as [| t ts]; simpl.
  { repeat split; try done. }
  pose proof (foldr_min_least ts t) as [Hmin_in Hmin].
  pose proof (foldr_max_greatest ts t) as [Hmax_in Hmax].
  split; [by intros b [= <-] |]. split; [by intros w [= <-] |].
  split.
  - intros b w [= <-] [= <-].
    specialize (Hmin t (list_elem_of_here _ _)).
    specialize (Hmax t (list_elem_of_here _ _)). lia.
  - by intros [= -> ->].
Qed.

Lemma best_worst_min_max_witness :
  let evs := pressQ 0 120 ++ pressQ 220 80 ++ pressQ 400 200 in
  correctTimesOf "q" (scoredPresses freshStart evs) = [120; 80; 200]
  ∧ ∃ k', entries (stats (stateOf (run freshStart evs))) !! "q"%string = Some k'
          ∧ bestTime k' = Ms 80 ∧ worstTime k' = Ms 200.
Proof.
  intros evs.
  assert (correctTimesOf "q" (scoredPresses freshStart evs) = [120; 80; 200])
    as Hts by (by vm_compute).
  split; [exact Hts |].
  destruct (best_worst_min_max freshStart evs "q" freshKeyStat)
    as (k' & Hk' & _ & _ & _ & _ & _ & _ & Hex); [by vm_compute | done | done |].
  exists k'. split; [exact Hk' |]. by apply Hex.
Defined.

(** ** Saving and loading *)

Lemma nullIfUndefined_defined (t : TimeSlot) : nullIfUndefined t ≠ Undefined.
Proof. by destruct t. Qed.

Lemma nullIfUndefined_id (t : TimeSlot) : t ≠ Undefined → nullIfUndefined t = t.
Proof. by destruct t. Qed.

Lemma initKey_makes_ok (o : Stats) (key : string) : keyOk (initKey o key) key.
Proof.
  unfold keyOk, initKey. destruct (entries o !! key) as [k |]; simpl;
    rewrite lookup_insert_eq; eexists; (split; [done |]); simpl.
  - split; apply nullIfUndefined_defined.
  - done.
Qed.

Lemma initKey_keeps_ok (o : Stats) (key other : string) :
  keyOk o other → keyOk (initKey o key) other.
Proof.
  intros Hok. destruct (decide (key = other)) as [-> | Hne].
  - apply initKey_makes_ok.
  - unfold keyOk, initKey in *.
    destruct (entries o !! key); simpl; by rewrite lookup_insert_ne.
Qed.

Lemma initKey_meta (o : Stats) (key : string) : meta (initKey o key) = meta o.
Proof. unfold initKey. by destruct (entries o !! key). Qed.

Lemma fold_initKey_keeps_ok (ks : list string) (o : Stats) (other : string) :
  keyOk o other → keyOk (fold_left initKey ks o) other.
Proof.
  revert o. induction ks as [| key ks IH]; intros o Hok; [done |].
  simpl. by apply IH, initKey_keeps_ok.
Qed.

Lemma fold_initKey_ok (ks : list string) (o : Stats) :
  Forall (keyOk (fold_left initKey ks o)) ks.
Proof.
  revert o. induction ks as [| key ks IH]; intros o; [done |].
  simpl. constructor; [| apply IH].
  apply fold_initKey_keeps_ok, initKey_makes_ok.
Qed.

Lemma fold_initKey_meta (ks : list string) (o : Stats) :
  meta (fold_left initKey ks o) = meta o.
Proof.
  revert o. induction ks as [| key ks IH]; intros o; [done |].
  simpl. by rewrite IH, initKey_meta.
Qed.

Lemma loadStats_ok (f : FileContent) (o : Stats) : loadStats f = Some o → storeOk o.
Proof.
  unfold loadStats. destruct (readStats f) as [o0 |]; [| done].
  intros Heq.
  assert (o = fold_left initKey keys (ensureMeta o0)) as -> by congruence.
  split.
  - rewrite fold_initKey_meta. unfold ensureMeta.
    destruct (meta o0) eqn:E; simpl; [by rewrite E | done].
  - apply fold_initKey_ok.
Qed.

Lemma initKey_id (o : Stats) (key : string) : keyOk o key → initKey o key = o.
Proof.
  intros (k & Hk & Hb & Hw). unfold initKey. rewrite Hk.
  rewrite (nullIfUndefined_id _ Hb), (nullIfUndefined_id _ Hw).
  destruct o as [m es], k; simpl in *. f_equal. by apply insert_id.
Qed.

Lemma fold_initKey_id (ks : list string) (o : Stats) :
  Forall (keyOk o) ks → fold_left initKey ks o = o.
Proof.
  induction 1 as [| key ks Hkey _ IH]; [done |].
  simpl. by rewrite (initKey_id o key Hkey).
Qed.

(** Loading what was saved from a well-formed store gives the store back. *)
Lemma loadStats_Object (o : Stats) : storeOk o → loadStats (Object o) = Some o.
Proof.
  intros [[g Hg] Hkeys]. unfold loadStats, readStats. f_equal.
  assert (ensureMeta o = o) as -> by (unfold ensureMeta; by rewrite Hg).
  by apply fold_initKey_id.
Qed.

Lemma storeOk_tracked (o : Stats) : storeOk o → tracked o.
Proof.
  intros [_ Hkeys]. unfold tracked. eapply Forall_impl; [exact Hkeys |].
  intros key (k & Hk & _). by exists k.
Qed.

Lemma seedMin_defined (t : Z) (b : TimeSlot) : b ≠ Undefined → seedMin t b ≠ Undefined.
Proof. by destruct b. Qed.

Lemma seedMax_defined (t : Z) (w : TimeSlot) : w ≠ Undefined → seedMax t w ≠ Undefined.
Proof. by destruct w. Qed.

Lemma step_meta (s : State) (ev : Event) :
  is_Some (meta (stats s)) → is_Some (meta (stats (stateOf (step s ev)))).
Proof.
  intros Hm. pose proof (step_effect s ev) as Heff. simpl in Heff.
  destruct (scoredBy s ev) as [p |] eqn:Hp.
  - destruct Heff as (k0 & _ & _ & _ & -> & _). done.
  - clear Heff. destruct ev as [e | random time]; simpl in *.
    + unfold onKeypress, displayFinalStats, saveStats in *.
      destruct (String.eqb (sequence e) ctrlC).
      { destruct Hm as [g ->]. by destruct (writeOk e). }
      destruct (currentKey s) as [key |]; simpl in *; [| done].
      destruct (String.eqb key ""); [done |].
      by destruct (entries (stats s) !! key).
    + destruct (pendingRounds s); [done |]. unfold nextRound. simpl.
      by destruct (chooseNextKey (stats s) random).
Qed.

Lemma step_storeOk (s : State) (ev : Event) :
  storeOk (stats s) → storeOk (stats (stateOf (step s ev))).
Proof.
  intros [Hm Hkeys]. split; [by apply step_meta |].
  pose proof (step_effect s ev) as Heff. simpl in Heff.
  destruct (scoredBy s ev) as [p |].
  - destruct Heff as (k0 & _ & Hk0 & Hentries & _).
    eapply Forall_impl; [exact Hkeys |].
    intros key (k & Hk & Hb & Hw). unfold keyOk. rewrite Hentries.
    destruct (decide (prompted p = key)) as [<- | Hne].
    + rewrite lookup_insert_eq. eexists. split; [done |].
      assert (k0 = k) as -> by congruence.
      unfold recordAttempt. destruct (isCorrect p); simpl; [| done].
      split; [by apply seedMin_defined | by apply seedMax_defined].
    + rewrite lookup_insert_ne by done. by exists k.
  - destruct Heff as [Hentries _].
    eapply Forall_impl; [exact Hkeys |].
    intros key Hok. unfold keyOk in *. by rewrite Hentries.
Qed.

Lemma reaches_storeOk (out : Outcome) : reaches out → storeOk (stats (stateOf out)).
Proof.
  induction 1 as [f random time out Hboot | s ev _ IH].
  - unfold boot in Hboot. destruct (loadStats f) as [o |] eqn:Hload; [| done].
    injection Hboot as <-. apply loadStats_ok in Hload.
    unfold nextRound. simpl. by destruct (chooseNextKey o random).
  - by apply step_storeOk.
Qed.

Lemma run_reaches (s : State) (evs : list Event) :
  reaches (Running s) → reaches (run s evs).
Proof.
  revert s. induction evs as [| ev evs IH]; intros s Hs; [done |].
  simpl. pose proof (reaches_step s ev Hs) as Hstep.
  destruct (step s ev); [by apply IH | done | done].
Qed.

Lemma defaultStats_tracked : tracked defaultStats.
Proof. unfold tracked. apply (bool_decide_unpack _). by vm_compute. Qed.

(** C8. In every state the program reaches, saving the stats and loading
    them again gives the same store: the meta counter and all six fields of
    every key, best and worst times that are [null] included.  A missing
    file and a file that cannot be read or parsed both load as the all-zero
    store, and the program goes on to its first prompt. *)
Theorem save_load_roundtrip (out : Outcome) :
  reaches out →
  let s := stateOf out in
  statsFile (saveStats s true) = Object (stats s)
  ∧ loadStats (statsFile (saveStats s true)) = Some (stats s)
  ∧ loadStats Missing = Some defaultStats
  ∧ loadStats Unreadable = Some defaultStats
  ∧ meta defaultStats = Some 0
  ∧ Forall (λ key, entries defaultStats !! key = Some (mkKeyStat 0 0 0 0 Null Null)) keys
  ∧ (∀ f random time, f = Missing ∨ f = Unreadable →
       ∃ s0, boot f random time = Some (Running s0) ∧ stats s0 = defaultStats).
Proof.
  intros Hreach s.
  split; [done |].
  split; [apply loadStats_Object, reaches_storeOk, Hreach |].
  assert (loadStats Missing = Some defaultStats) as Hmiss by (by vm_compute).
  assert (loadStats Unreadable = Some defaultStats) as Hunr by (by vm_compute).
  split; [done |]. split; [done |]. split; [done |].
  split.
  { unfold keys. repeat (apply List.Forall_cons; [by vm_compute |]).
    apply List.Forall_nil. }
  intros f random time Hf.
  assert (loadStats f = Some defaultStats) as Hload by (by destruct Hf as [-> | ->]).
  unfold boot. rewrite Hload. unfold nextRound. simpl.
  destruct (chooseNextKey_cases defaultStats random defaultStats_tracked)
    as (key & -> & _).
  by eexists.
Qed.

Lemma save_load_roundtrip_witness :
  let s := stateOf (run freshStart (pressQ 0 120)) in
  entries (stats s) !! "q"%string = Some (mkKeyStat 1 1 120 0 (Ms 120) (Ms 120))
  ∧ loadStats (statsFile (saveStats s true)) = Some (stats s).
Proof.
  intros s. split; [by vm_compute |].
  assert (reaches (run freshStart (pressQ 0 120))) as Hreach.
  { apply run_reaches, (reaches_boot Missing 0 0), boot_freshStart. }
  by destruct (save_load_roundtrip _ Hreach) as (_ & H & _).
Defined.

(** ** ANSI-aware width *)

Lemma stripAnsi_cons (c : N) (r : list N) :
  stripAnsi (c :: r)
  = match sgrLength (c :: r) with
    | Some n => stripAnsi (drop (pred n) r)
    | None => c :: stripAnsi r
    end.
Proof. simp stripAnsi. by destruct (sgrLength (c :: r)). Qed.

Lemma ansiPrefix_cons (c : N) (r : list N) :
  ansiPrefix (c :: r)
  = match sgrLength (c :: r) with
    | Some n => take n (c :: r) ++ ansiPrefix (drop (pred n) r)
    | None => []
    end.
Proof. simp ansiPrefix. by destruct (sgrLength (c :: r)). Qed.

(** Induction on the length of a line, the recursion scheme of the two
    scanners. *)
Lemma line_ind (P : list N → Prop) :
  (∀ s, (∀ t, (length t < length s)%nat → P t) → P s) → ∀ s, P s.
Proof.
  intros Hstep s. remember (length s) as n eqn:Hn. revert s Hn.
  induction (lt_wf n) as [n _ IH]. intros s ->.
  apply Hstep. intros t Ht. by apply (IH (length t)).
Qed.

Lemma length_stripAnsi (s : list N) : (length (stripAnsi s) ≤ length s)%nat.
Proof.
  induction s as [s IH] using line_ind. destruct s as [| c r]; [done |].
  rewrite stripAnsi_cons. destruct (sgrLength (c :: r)) as [n |].
  - etrans; [apply IH |]; simpl; rewrite ?length_drop; lia.
  - simpl. specialize (IH r). simpl in IH. lia.
Qed.

(** A match of the pattern has at least three code units and lies inside the
    line. *)
Lemma sgrLength_bounds (s : list N) (n : nat) :
  sgrLength s = Some n → (3 ≤ n ≤ length s)%nat.
Proof.
  destruct s as [| e [| b r]]; try done. simpl.
  destruct ((e =? ESC)%N && (b =? LBRACKET)%N); [| done].
  destruct (r !! paramRun r) as [m |] eqn:Hm; [| done].
  destruct (m =? LOWER_M)%N; [| done]. intros [= <-].
  apply lookup_lt_Some in Hm. lia.
Qed.

Lemma paramRun_take_app (r t : list N) (m : N) :
  r !! paramRun r = Some m → isParam m = false →
  paramRun (take (S (paramRun r)) r ++ t) = paramRun r
  ∧ (take (S (paramRun r)) r ++ t) !! paramRun r = Some m.
Proof.
  induction r as [| c r IH]; [done |]. simpl.
  destruct (isParam c) eqn:Hc; simpl.
  - intros Hm Hnp. destruct (IH Hm Hnp) as [-> ->]. done.
  - intros [= ->] _. rewrite ?Hc. done.
Qed.

(** A matched sequence is matched again, with the same length, whatever
    follows it. *)
Lemma sgrLength_take_app (s t : list N) (n : nat) :
  sgrLength s = Some n →
  sgrLength (take n s ++ t) = Some n ∧ drop n (take n s ++ t) = t.
Proof.
  intros Hn. pose proof (sgrLength_bounds s n Hn) as Hb.
  split; [| rewrite drop_app_length'; [done | rewrite length_take; lia]].
  destruct s as [| e [| b r]]; try done. simpl in Hn.
  destruct ((e =? ESC)%N && (b =? LBRACKET)%N) eqn:Heb; [| done].
  destruct (r !! paramRun r) as [m |] eqn:Hm; [| done].
  destruct (m =? LOWER_M)%N eqn:HmM; [| done]. injection Hn as <-.
  replace (paramRun r + 3)%nat with (S (S (S (paramRun r)))) by lia.
  simpl. rewrite Heb.
  assert (isParam m = false) as Hnp.
  { apply N.eqb_eq in HmM. by subst m. }
  destruct (paramRun_take_app r t m Hm Hnp) as [-> ->].
  rewrite HmM. f_equal. lia.
Qed.

(** Stripping a line that begins with its style prefix strips what follows
    the prefix. *)
Lemma stripAnsi_ansiPrefix_app (s t : list N) :
  stripAnsi (ansiPrefix s ++ t) = stripAnsi t.
Proof.
  induction s as [s IH] using line_ind. destruct s as [| c r]; [done |].
  rewrite ansiPrefix_cons. destruct (sgrLength (c :: r)) as [n |] eqn:Hn; [| done].
  pose proof (sgrLength_bounds _ _ Hn) as Hb.
  rewrite <- app_assoc.
  destruct (sgrLength_take_app (c :: r) (ansiPrefix (drop (pred n) r) ++ t) n Hn)
    as [Hlen Hdrop].
  destruct n as [| n]; [lia |].
  set (rest := ansiPrefix (drop (pred (S n)) r) ++ t) in *.
  change (take (S n) (c :: r) ++ rest) with (c :: (take n r ++ rest)) in *.
  rewrite stripAnsi_cons, Hlen.
  change (drop n (take n r ++ rest) = rest) in Hdrop.
  change (pred (S n)) with n. rewrite Hdrop.
  apply IH. simpl. rewrite length_drop. lia.
Qed.

Lemma paramRun_take_ellipsis (r : list N) (j : nat) :
  r !! paramRun r ≠ Some LOWER_M →
  (take j r ++ [ELLIPSIS]) !! paramRun (take j r ++ [ELLIPSIS]) ≠ Some LOWER_M.
Proof.
  revert j. induction r as [| c r IH]; intros j Hr.
  - by rewrite take_nil.
  - destruct j as [| j]; [done |]. simpl in *.
    destruct (isParam c); simpl in *; [by apply IH | done].
Qed.

(** Cutting a line and appending the ellipsis creates no style sequence at
    its start. *)
Lemma sgrLength_take_ellipsis (s : list N) (j : nat) :
  sgrLength s = None → sgrLength (take j s ++ [ELLIPSIS]) = None.
Proof.
  intros Hs. destruct s as [| e [| b r]].
  - by rewrite take_nil.
  - destruct j as [| j]; [done |]. simpl. rewrite take_nil. simpl.
    destruct (e =? ESC)%N; done.
  - destruct j as [| [| j]]; try done.
    + simpl. by destruct (e =? ESC)%N.
    + simpl in *. destruct ((e =? ESC)%N && (b =? LBRACKET)%N); [| done].
      pose proof (paramRun_take_ellipsis r j) as Hcut.
      destruct ((take j r ++ [ELLIPSIS]) !! paramRun (take j r ++ [ELLIPSIS]))
        as [m |] eqn:Hm; [| done].
      destruct (m =? LOWER_M)%N eqn:HmM; [| done].
      apply N.eqb_eq in HmM. subst m. exfalso. apply Hcut; [| done].
      destruct (r !! paramRun r) as [m |]; [| done].
      destruct (m =? LOWER_M)%N eqn:HmM; [done |].
      apply N.eqb_neq in HmM. congruence.
Qed.

(** A text without style sequences keeps none when it is cut and the
    ellipsis is appended. *)
Lemma stripAnsi_take_ellipsis (p : list N) (j : nat) :
  stripAnsi p = p → stripAnsi (take j p ++ [ELLIPSIS]) = take j p ++ [ELLIPSIS].
Proof.
  revert j. induction p as [| c r IH]; intros j Hp.
  - by rewrite take_nil.
  - rewrite stripAnsi_cons in Hp.
    destruct (sgrLength (c :: r)) as [n |] eqn:Hn.
    { exfalso. pose proof (length_stripAnsi (drop (pred n) r)) as Hlen.
      rewrite Hp, length_drop in Hlen. simpl in Hlen. lia. }
    injection Hp as Hp. destruct j as [| j]; [done |].
    change (take (S j) (c :: r) ++ [ELLIPSIS]) with (c :: (take j r ++ [ELLIPSIS])).
    rewrite stripAnsi_cons.
    change (c :: (take j r ++ [ELLIPSIS])) with (take (S j) (c :: r) ++ [ELLIPSIS]).
    rewrite (sgrLength_take_ellipsis (c :: r) (S j) Hn). by rewrite (IH j Hp).
Qed.

(** A line that fits is returned as it is. *)
Lemma truncateAnsiPreserve_fits (str : list N) (width : Z) :
  Z.of_nat (length (stripAnsi str)) ≤ width → truncateAnsiPreserve str width = str.
Proof.
  intros Hfit. unfold truncateAnsiPreserve.
  by destruct (Z.leb_spec (Z.of_nat (length (stripAnsi str))) width); [| lia].
Qed.

(** A longer line whose stripped text holds no style sequence is cut to the
    width: the style prefix, the first [width - 1] units of the text and the
    ellipsis. *)
Lemma truncateAnsiPreserve_cuts (str : list N) (width : Z) :
  1 ≤ width < Z.of_nat (length (stripAnsi str)) →
  stripAnsi (stripAnsi str) = stripAnsi str →
  truncateAnsiPreserve str width
  = ansiPrefix str ++ take (Z.to_nat (width - 1)) (stripAnsi str) ++ [ELLIPSIS]
  ∧ stripAnsi (truncateAnsiPreserve str width)
    = take (Z.to_nat (width - 1)) (stripAnsi str) ++ [ELLIPSIS]
  ∧ Z.of_nat (length (stripAnsi (truncateAnsiPreserve str width))) = width.
Proof.
  intros Hw Hplain.
  assert (truncateAnsiPreserve str width
          = ansiPrefix str ++ take (Z.to_nat (width - 1)) (stripAnsi str) ++ [ELLIPSIS])
    as Hres.
  { unfold truncateAnsiPreserve, slice0.
    destruct (Z.leb_spec (Z.of_nat (length (stripAnsi str))) width); [lia |].
    by destruct (Z.ltb_spec (width - 1) 0); [lia |]. }
  split; [done |]. rewrite Hres, stripAnsi_ansiPrefix_app.
  rewrite (stripAnsi_take_ellipsis _ _ Hplain).
  split; [done |]. rewrite length_app, length_take. simpl. lia.
Qed.

(** * Further properties of the code *)

(** ** Counters *)

Lemma pressesOf_app (key : string) (ps qs : list Scored) :
  pressesOf key (ps ++ qs) = pressesOf key ps ++ pressesOf key qs.
Proof. unfold pressesOf. by rewrite filter_app. Qed.

Lemma foldr_add_app (xs ys : list Z) :
  foldr Z.add 0 (xs ++ ys) = foldr Z.add 0 xs + foldr Z.add 0 ys.
Proof. induction xs as [| x xs IH]; simpl; lia. Qed.

Lemma counted_nil (key : string) (k0 : KeyStat) : counted key [] k0 k0.
Proof. unfold counted. simpl. lia. Qed.

Lemma counted_app (key : string) (ps qs : list Scored) (k0 k1 k2 : KeyStat) :
  counted key ps k0 k1 → counted key qs k1 k2 → counted key (ps ++ qs) k0 k2.
Proof.
  unfold counted. rewrite pressesOf_app, correctTimesOf_app, !length_app, foldr_add_app.
  lia.
Qed.

Lemma correctTimesOf_le_pressesOf (key : string) (ps : list Scored) :
  (length (correctTimesOf key ps) ≤ length (pressesOf key ps))%nat.
Proof.
  unfold correctTimesOf, pressesOf. rewrite length_fmap.
  induction ps as [| p ps IH]; [done |].
  rewrite !filter_cons.
  destruct (decide (prompted p = key)) as [Hk | Hk].
  - destruct (decide (isCorrect p = true ∧ prompted p = key)); simpl; lia.
  - rewrite decide_False by (by intros [_ ?]). done.
Qed.

Lemma step_counted (s : State) (ev : Event) (key : string) (k0 : KeyStat) :
  entries (stats s) !! key = Some k0 →
  ∃ k', entries (stats (stateOf (step s ev))) !! key = Some k'
        ∧ counted key (match scoredBy s ev with Some p => [p] | None => [] end) k0 k'.
Proof.
  intros Hk0. pose proof (step_effect s ev) as Heff. simpl in Heff.
  destruct (scoredBy s ev) as [p |].
  - destruct Heff as (k & _ & Hk & -> & _).
    unfold counted, pressesOf, correctTimesOf. rewrite !filter_cons, !filter_nil.
    destruct (decide (prompted p = key)) as [<- | Hother].
    + assert (k = k0) as -> by congruence.
      rewrite lookup_insert_eq. eexists. split; [done |].
      unfold recordAttempt. destruct (isCorrect p) eqn:Hp.
      * rewrite decide_True by done. simpl. lia.
      * rewrite decide_False by (intros [? _]; done). simpl. lia.
    + rewrite lookup_insert_ne by done. exists k0. split; [done |].
      rewrite decide_False by (intros [_ ?]; done). simpl. lia.
  - destruct Heff as [-> _]. exists k0. split; [done |]. apply counted_nil.
Qed.

Lemma run_counted (s : State) (evs : list Event) (key : string) (k0 : KeyStat) :
  entries (stats s) !! key = Some k0 →
  ∃ k', entries (stats (stateOf (run s evs))) !! key = Some k'
        ∧ counted key (scoredPresses s evs) k0 k'.
Proof.
  revert s k0. induction evs as [| ev evs IH]; intros s k0 Hk0.
  - exists k0. split; [done |]. apply counted_nil.
  - destruct (step_counted s ev key k0 Hk0) as (k1 & Hk1 & Hc1). simpl.
    destruct (step s ev) as [s' | s' | s']; simpl in *.
    + destruct (IH s' k1 Hk1) as (k' & Hk' & Hc). exists k'.
      split; [done |]. by eapply counted_app.
    + by exists k1.
    + by exists k1.
Qed.

(** X1. After any sequence of events, a key's record has gained one attempt
    per press scored while it was prompted, one success per correct press,
    one error per other press, and the reaction times of the correct presses
    in its total time. *)
Theorem counters_after_run (s : State) (evs : list Event) (key : string) (k0 : KeyStat) :
  entries (stats s) !! key = Some k0 →
  let ps := scoredPresses s evs in
  let presses := Z.of_nat (length (pressesOf key ps)) in
  let correct := Z.of_nat (length (correctTimesOf key ps)) in
  ∃ k', entries (stats (stateOf (run s evs))) !! key = Some k'
    ∧ attempts k' = attempts k0 + presses
    ∧ successes k' = successes k0 + correct
    ∧ errors k' = errors k0 + (presses - correct)
    ∧ totalTime k' = totalTime k0 + foldr Z.add 0 (correctTimesOf key ps).
Proof.
  intros Hk0 ps presses correct.
  destruct (run_counted s evs key k0 Hk0) as (k' & Hk' & Hc).
  exists k'. split; [done |]. exact Hc.
Qed.

Lemma counters_after_run_witness :
  let evs := pressQ 0 120
             ++ [Keypress (mkKeyEvent (Some "x"%string) "x" 300 true);
                 TimerFired 0 400]
             ++ pressQ 400 80 in
  ∃ k', entries (stats (stateOf (run freshStart evs))) !! "q"%string = Some k'
        ∧ attempts k' = 3 ∧ successes k' = 2 ∧ errors k' = 1 ∧ totalTime k' = 200.
Proof.
  intros evs.
  destruct (counters_after_run freshStart evs "q" freshKeyStat)
    as (k' & Hk' & Ha & Hs & He & Ht); [by vm_compute |].
  exists k'. split; [exact Hk' |].
  rewrite Ha, Hs, He, Ht. clear. vm_compute. repeat split.
Defined.

(** X2. A record whose attempts are its successes plus its errors, none of
    them negative, stays so through any sequence of events; its successes
    then never exceed its attempts. *)
Theorem consistent_after_run (s : State) (evs : list Event) (key : string) (k0 : KeyStat) :
  entries (stats s) !! key = Some k0 → consistent k0 →
  ∃ k', entries (stats (stateOf (run s evs))) !! key = Some k'
        ∧ consistent k' ∧ 0 ≤ successes k' ≤ attempts k'.
Proof.
  intros Hk0 (Hs & He & Ha).
  destruct (run_counted s evs key k0 Hk0) as (k' & Hk' & Ha' & Hs' & He' & _).
  pose proof (correctTimesOf_le_pressesOf key (scoredPresses s evs)) as Hle.
  exists k'. split; [done |]. unfold consistent. lia.
Qed.

Lemma consistent_after_run_witness :
  ∃ k', entries (stats (stateOf (run freshStart (pressQ 0 120 ++ pressQ 220 80))))
          !! "q"%string = Some k'
        ∧ consistent k' ∧ 0 ≤ successes k' ≤ attempts k'.
Proof.
  apply (consistent_after_run freshStart _ "q" freshKeyStat).
  - by vm_compute.
  - unfold consistent. simpl. lia.
Defined.





(** ** Interrupt, failed writes, keys without a character *)

(** X4. The interrupt key, in any state in which the meta counter exists:
    the games played grow by one, the stats are written (when the write
    succeeds), the program exits; the press is not scored, and records,
    rolling window, log and round count stay as they are. *)
Theorem interrupt_exits (s : State) (e : KeyEvent) (g : Z) :
  sequence e = ctrlC → meta (stats s) = Some g →
  ∃ s', onKeypress s e = Exited s'
    ∧ meta (stats s') = Some (g + 1)
    ∧ entries (stats s') = entries (stats s)
    ∧ statsFile s' = (if writeOk e then Object (stats s') else statsFile s)
    ∧ reactionTimes s' = reactionTimes s ∧ resultsLog s' = resultsLog s
    ∧ round s' = round s
    ∧ scoredBy s (Keypress e) = None.
Proof.
  intros Hseq Hg. unfold onKeypress, displayFinalStats, scoredBy.
  assert (String.eqb (sequence e) ctrlC = true) as -> by (by apply String.eqb_eq).
  rewrite Hg. eexists. split; [done |].
  unfold saveStats. by destruct (writeOk e).
Qed.

Lemma interrupt_exits_witness :
  ∃ s', onKeypress freshStart (mkKeyEvent None ctrlC 50 true) = Exited s'
    ∧ meta (stats s') = Some 1
    ∧ statsFile s' = Object (stats s')
    ∧ resultsLog s' = [].
Proof.
  destruct (interrupt_exits freshStart (mkKeyEvent None ctrlC 50 true) 0)
    as (s' & Hs' & Hm & _ & Hf & _ & Hl & _); [done | done |].
  exists s'. split; [exact Hs' |]. split; [exact Hm |]. split; [exact Hf | exact Hl].
Defined.

Lemma step_meta_cases (s : State) (ev : Event) (g : Z) :
  meta (stats s) = Some g →
  match step s ev with
  | Running s' | Crashed s' => meta (stats s') = Some g
  | Exited s' => meta (stats s') = Some (g + 1)
  end.
Proof.
  intros Hg. destruct ev as [e | random time]; simpl.
  - unfold onKeypress, displayFinalStats, saveStats.
    destruct (String.eqb (sequence e) ctrlC).
    { rewrite Hg. by destruct (writeOk e). }
    destruct (currentKey s) as [key |]; simpl; [| done].
    destruct (String.eqb key ""); [done |].
    destruct (entries (stats s) !! key); [| done].
    destruct (decide (str e = Some key)).
    + by destruct (writeOk e).
    + destruct (str e); [by destruct (writeOk e) | done].
  - destruct (pendingRounds s); [done |]. unfold nextRound. simpl.
    by destruct (chooseNextKey (stats s) random).
Qed.

(** X5. Along any sequence of events the games played stay what they were
    while the program runs (or when it crashes) and are one more once it
    has exited. *)
Theorem gamesPlayed_once (s : State) (evs : list Event) (g : Z) :
  meta (stats s) = Some g →
  match run s evs with
  | Running s' | Crashed s' => meta (stats s') = Some g
  | Exited s' => meta (stats s') = Some (g + 1)
  end.
Proof.
  revert s. induction evs as [| ev evs IH]; intros s Hg; [done |].
  simpl. pose proof (step_meta_cases s ev g Hg) as Hstep.
  destruct (step s ev) as [s' | s' | s']; [by apply IH | done | done].
Qed.

Lemma gamesPlayed_once_witness :
  match run freshStart (pressQ 0 120
                        ++ [Keypress (mkKeyEvent None ctrlC 300 true)]
                        ++ pressQ 400 80) with
  | Exited s' => meta (stats s') = Some 1
  | _ => False
  end.
Proof.
  pose proof (gamesPlayed_once freshStart
                (pressQ 0 120 ++ [Keypress (mkKeyEvent None ctrlC 300 true)]
                 ++ pressQ 400 80) 0 eq_refl) as H.
  vm_compute in H. vm_compute. exact H.
Defined.

(** X6. A write that fails changes nothing but the file: the listener ends
    the same way and leaves the same state in memory as with a write that
    succeeds, and the stats file is what it was before the key press. *)
Theorem failed_write_only_skips_file (s : State) (str0 : option string)
    (seq : string) (time : Z) :
  onKeypress s (mkKeyEvent str0 seq time false)
  = mapOutcome (withStatsFile (statsFile s))
               (onKeypress s (mkKeyEvent str0 seq time true))
  ∧ statsFile (stateOf (onKeypress s (mkKeyEvent str0 seq time false))) = statsFile s.
Proof.
  assert (withStatsFile (statsFile s) s = s) as Hid by (by destruct s).
  unfold onKeypress, displayFinalStats, saveStats. simpl.
  destruct (String.eqb seq ctrlC).
  { destruct (meta (stats s)); simpl; [done | by rewrite Hid]. }
  destruct (currentKey s) as [key |] eqn:Hkey; simpl; [| by rewrite Hid].
  destruct (String.eqb key ""); simpl; [by rewrite Hid |].
  destruct (entries (stats s) !! key); simpl; [| by rewrite Hid].
  destruct (decide (str0 = Some key)); simpl; [done |].
  by destruct str0.
Qed.

(** X7. A key press that carries no character ([str] is [undefined], as
    for an arrow key) while a key is prompted: the prompted key is charged
    one attempt and one error, then [str.toUpperCase()] throws; nothing is
    logged or written, and the prompt and the timers stay as they are. *)
Theorem undefined_str_crashes (s : State) (e : KeyEvent) (key : string) (k0 : KeyStat) :
  currentKey s = Some key → key ∈ keys →
  entries (stats s) !! key = Some k0 →
  sequence e ≠ ctrlC → str e = None →
  ∃ s', onKeypress s e = Crashed s'
    ∧ entries (stats s')
      = <[key := mkKeyStat (attempts k0 + 1) (successes k0) (totalTime k0)
                           (errors k0 + 1) (bestTime k0) (worstTime k0)]>
          (entries (stats s))
    ∧ resultsLog s' = resultsLog s ∧ statsFile s' = statsFile s
    ∧ currentKey s' = currentKey s ∧ pendingRounds s' = pendingRounds s
    ∧ reactionTimes s' = reactionTimes s.
Proof.
  intros Hkey Hin Hk0 Hseq Hstr. unfold onKeypress.
  rewrite (ctrlC_eqb_false _ Hseq), Hkey. simpl.
  rewrite (elem_of_keys_nonempty key Hin), Hk0, Hstr.
  rewrite decide_False by done. eexists. split; [done |]. by simpl.
Qed.

Lemma undefined_str_crashes_witness :
  ∃ s', onKeypress freshStart (mkKeyEvent None "[A" 50 true) = Crashed s'
    ∧ entries (stats s') !! "q"%string = Some (mkKeyStat 1 0 0 1 Null Null)
    ∧ statsFile s' = Missing.
Proof.
  destruct (undefined_str_crashes freshStart (mkKeyEvent None "[A" 50 true) "q"
              freshKeyStat)
    as (s' & Hs' & He & _ & Hf & _).
  - reflexivity.
  - apply (bool_decide_unpack _). by vm_compute.
  - by vm_compute.
  - apply (bool_decide_eq_false_1 _). by vm_compute.
  - reflexivity.
  - exists s'. split; [exact Hs' |]. split; [| exact Hf].
    rewrite He. by rewrite lookup_insert_eq.
Defined.

(** ** Selection: weights and starvation *)
















(** ** The round cycle *)

Lemma nextRound_awaiting (s s' : State) (random : Q) (time : Z) :
  tracked (stats s) → nextRound s random time = Running s' →
  (∃ key, currentKey s' = Some key ∧ key ∈ keys)
  ∧ promptTime s' = Some time ∧ round s' = round s + 1
  ∧ pendingRounds s' = pendingRounds s ∧ resultsLog s' = resultsLog s
  ∧ stats s' = stats s ∧ reactionTimes s' = reactionTimes s.
Proof.
  intros Ht. unfold nextRound.
  destruct (chooseNextKey_cases (stats s) random Ht) as (key & -> & Hin & _).
  intros [= <-]. simpl. split; [by exists key | done].
Qed.

Lemma boot_roundsCounted (f : FileContent) (random : Q) (time : Z) (s : State) :
  boot f random time = Some (Running s) → roundsCounted s.
Proof.
  unfold boot. destruct (loadStats f) as [o |] eqn:Hload; [| done].
  intros [= Hnext]. apply loadStats_ok, storeOk_tracked in Hload.
  apply nextRound_awaiting in Hnext; [| done].
  destruct Hnext as (Hkey & Hprompt & Hround & Hpending & Hlog & _).
  left. simpl in *. split; [| rewrite Hlog; simpl; lia].
  split; [done |]. split; [by rewrite Hprompt | done].
Qed.

Lemma step_roundsCounted (s s' : State) (ev : Event) :
  tracked (stats s) → roundsCounted s → step s ev = Running s' → roundsCounted s'.
Proof.
  intros Ht Hinv. destruct ev as [e | random time]; simpl.
  - unfold onKeypress, displayFinalStats, saveStats.
    destruct (String.eqb (sequence e) ctrlC).
    { by destruct (meta (stats s)). }
    destruct (currentKey s) as [key |] eqn:Hkey; simpl; [| by intros [= <-]].
    destruct (String.eqb key ""); [by intros [= <-] |].
    destruct Hinv as [[(_ & _ & Hpending) Hround] | [[Hnone _] _]]; [| congruence].
    destruct (entries (stats s) !! key); [| done].
    destruct (decide (str e = Some key)).
    + intros [= <-]. right. unfold betweenRounds.
      destruct (writeOk e); simpl; rewrite Hpending, length_app; simpl;
        (split; [done | lia]).
    + destruct (str e); [| done].
      intros [= <-]. right. unfold betweenRounds.
      destruct (writeOk e); simpl; rewrite Hpending, length_app; simpl;
        (split; [done | lia]).
  - destruct (pendingRounds s) as [| n] eqn:Hpending; [by intros [= <-] |].
    destruct Hinv as [[(_ & _ & Hzero) _] | [[Hnone Hone] Hround]]; [congruence |].
    intros Hnext. apply nextRound_awaiting in Hnext; [| done].
    destruct Hnext as (Hkey' & Hprompt & Hround' & Hpending' & Hlog & _).
    simpl in *. left. split; [| rewrite Hround', Hlog; lia].
    split; [done |]. split; [by rewrite Hprompt |]. rewrite Hpending'. lia.
Qed.

(** X10. In every state the program reaches while running, either a
    tracked key is prompted, its prompt time is set and no timer is pending,
    or no key is prompted and exactly one [nextRound] timer is pending; the
    round counter is the number of log lines, plus one while a key is
    prompted. *)
Theorem rounds_alternate (s : State) : reaches (Running s) → roundsCounted s.
Proof.
  intros Hreach. remember (Running s) as out eqn:Hout. revert s Hout.
  induction Hreach as [f random time out Hboot | s0 ev Hreach IH]; intros s Hout.
  - subst out. by eapply boot_roundsCounted.
  - eapply step_roundsCounted; [| by apply IH | done].
    by apply storeOk_tracked, (reaches_storeOk (Running s0)).
Qed.

Lemma rounds_alternate_witness :
  roundsCounted (mkState (stats (stateOf (run freshStart (pressQ 0 120))))
                         2 (Some "q"%string) (Some 220) [120] [Correct 1 "q" 120]
                         (Object (stats (stateOf (run freshStart (pressQ 0 120))))) 0).
Proof.
  apply rounds_alternate.
  assert (reaches (run freshStart (pressQ 0 120))) as Hreach.
  { apply run_reaches, (reaches_boot Missing 0 0), boot_freshStart. }
  exact Hreach.
Defined.

(** ** What loading keeps and fills *)

Lemma normalised_idem (k : option KeyStat) : normalised (Some (normalised k)) = normalised k.
Proof.
  destruct k as [s |]; [| done]. unfold normalised. simpl.
  by destruct (bestTime s), (worstTime s).
Qed.

Lemma initKey_lookup (o : Stats) (key other : string) :
  entries (initKey o key) !! other
  = if decide (other = key) then Some (normalised (entries o !! key))
    else entries o !! other.
Proof.
  unfold initKey. case_decide as Heq.
  - subst other. destruct (entries o !! key); simpl; by rewrite lookup_insert_eq.
  - destruct (entries o !! key); simpl; by rewrite lookup_insert_ne.
Qed.

Lemma fold_initKey_lookup (ks : list string) (o : Stats) (key : string) :
  entries (fold_left initKey ks o) !! key
  = if decide (key ∈ ks) then Some (normalised (entries o !! key))
    else entries o !! key.
Proof.
  revert o. induction ks as [| k ks IH]; intros o.
  - done.
  - simpl. rewrite IH, initKey_lookup.
    repeat case_decide; subst; rewrite ?normalised_idem; try done.
    all: try match goal with
           | H : ¬ (_ ∈ _ :: _) |- _ => exfalso; apply H; rewrite elem_of_cons; auto
           end.
    match goal with
    | H : _ ∈ _ :: _ |- _ => apply elem_of_cons in H as [? | ?]; done
    end.
Qed.

(** X11. From a stats file that holds an object of the store's shape (a
    meta object with its games played, or none; per-key records with their
    counters and a best and worst time that is a number, [null] or missing),
    loading succeeds: it keeps the games played, or sets 0 when the file has
    no meta object; it keeps every record of a key that is not tracked; it
    keeps the counters of every tracked record and turns a missing best or
    worst time into [null]; and it gives every tracked key without a record
    the all-zero one. *)
Theorem load_keeps_and_fills (o0 : Stats) :
  ∃ o, loadStats (Object o0) = Some o
    ∧ meta o = Some (default 0 (meta o0))
    ∧ (∀ key, key ∉ keys → entries o !! key = entries o0 !! key)
    ∧ (∀ key, key ∈ keys → entries o !! key = Some (normalised (entries o0 !! key)))
    ∧ storeOk o.
Proof.
  eexists. split; [done |].
  split; [| split; [| split]].
  - rewrite fold_initKey_meta. unfold ensureMeta. by destruct (meta o0) eqn:E; simpl.
  - intros key Hkey. rewrite fold_initKey_lookup, decide_False by done.
    unfold ensureMeta. by destruct (meta o0).
  - intros key Hkey. rewrite fold_initKey_lookup, decide_True by done.
    unfold ensureMeta. by destruct (meta o0).
  - by apply (loadStats_ok (Object o0)).
Qed.

(** ** Styled text and padding *)

Lemma sgrLength_not_esc (c : N) (r : list N) : c ≠ ESC → sgrLength (c :: r) = None.
Proof.
  intros Hc. destruct r as [| b r]; [done |]. simpl.
  by rewrite (proj2 (N.eqb_neq c ESC) Hc).
Qed.

Lemma stripAnsi_text_app (t rest : list N) :
  ESC ∉ t → stripAnsi (t ++ rest) = t ++ stripAnsi rest.
Proof.
  induction t as [| c t IH]; intros Ht; [done |].
  apply not_elem_of_cons in Ht as [Hc Ht].
  change ((c :: t) ++ rest) with (c :: (t ++ rest)).
  rewrite stripAnsi_cons, sgrLength_not_esc by done. simpl. by rewrite IH.
Qed.

Lemma stripAnsi_text (t : list N) : ESC ∉ t → stripAnsi t = t.
Proof.
  intros Ht. rewrite <- (app_nil_r t) at 1. rewrite stripAnsi_text_app by done.
  by rewrite app_nil_r.
Qed.

Lemma paramRun_params_app (ps rest : list N) (m : N) :
  Forall (λ c, isParam c = true) ps → isParam m = false →
  paramRun (ps ++ m :: rest) = length ps ∧ (ps ++ m :: rest) !! length ps = Some m.
Proof.
  intros Hps Hm. induction Hps as [| c ps Hc _ [IH1 IH2]]; simpl.
  - by rewrite Hm.
  - by rewrite Hc, IH1.
Qed.

Lemma stripAnsi_style_app (params rest : list N) :
  Forall (λ c, isParam c = true) params →
  stripAnsi (ESC :: LBRACKET :: params ++ [LOWER_M] ++ rest) = stripAnsi rest.
Proof.
  intros Hps. rewrite stripAnsi_cons.
  destruct (paramRun_params_app params rest LOWER_M Hps eq_refl) as [Hrun Hm].
  assert (sgrLength (ESC :: LBRACKET :: params ++ [LOWER_M] ++ rest)
          = Some (length params + 3)%nat) as ->.
  { simpl. by rewrite Hrun, Hm. }
  replace (pred (length params + 3)) with (S (length params + 1)) by lia.
  simpl.
  replace (params ++ LOWER_M :: rest) with ((params ++ [LOWER_M]) ++ rest)
    by (by rewrite <- app_assoc).
  rewrite drop_app_length'; [done |]. rewrite length_app. simpl. lia.
Qed.

Lemma renderSegments_cons (seg : Segment) (segs : list Segment) :
  renderSegments (seg :: segs) = renderSegment seg ++ renderSegments segs.
Proof. done. Qed.

Lemma plainText_cons (seg : Segment) (segs : list Segment) :
  plainText (seg :: segs) = textOf seg ++ plainText segs.
Proof. done. Qed.

Lemma plainText_no_esc (segs : list Segment) :
  Forall wellFormed segs → ESC ∉ plainText segs.
Proof.
  induction 1 as [| seg segs Hseg _ IH]; [apply not_elem_of_nil |].
  rewrite plainText_cons, not_elem_of_app.
  split; [| done]. destruct seg; [done | apply not_elem_of_nil].
Qed.

(** X12. For a line made of texts without the escape character and of style
    sequences, [stripAnsi] returns the texts alone, in order; the result
    holds no escape character, so stripping it again changes nothing. *)
Theorem stripAnsi_styled (segs : list Segment) :
  Forall wellFormed segs →
  stripAnsi (renderSegments segs) = plainText segs
  ∧ (ESC ∉ stripAnsi (renderSegments segs))
  ∧ stripAnsi (stripAnsi (renderSegments segs)) = stripAnsi (renderSegments segs).
Proof.
  intros Hwf.
  assert (stripAnsi (renderSegments segs) = plainText segs) as Hstrip.
  { induction Hwf as [| seg segs Hseg _ IH]; [done |].
    rewrite renderSegments_cons, plainText_cons.
    destruct seg as [t | params]; simpl in *.
    - by rewrite stripAnsi_text_app, IH.
    - rewrite <- app_assoc. by rewrite (stripAnsi_style_app params), IH. }
  pose proof (plainText_no_esc segs Hwf) as Hesc.
  rewrite Hstrip. split; [done |]. split; [done |]. by apply stripAnsi_text.
Qed.

Lemma stripAnsi_styled_witness :
  stripAnsi greenLine = replicate 15 97%N
  ∧ (ESC ∉ stripAnsi greenLine)
  ∧ stripAnsi (stripAnsi greenLine) = stripAnsi greenLine.
Proof.
  apply (stripAnsi_styled [Style [51; 50]%N; Text (replicate 15 97%N); Style [51; 57]%N]).
  apply List.Forall_cons.
  { simpl. repeat (apply List.Forall_cons; [reflexivity |]). apply List.Forall_nil. }
  apply List.Forall_cons.
  { simpl. apply (bool_decide_unpack _). by vm_compute. }
  apply List.Forall_cons.
  { simpl. repeat (apply List.Forall_cons; [reflexivity |]). apply List.Forall_nil. }
  apply List.Forall_nil.
Defined.

Lemma paramRun_app_spaces (r : list N) (k : nat) :
  paramRun (r ++ replicate k SPACE) = paramRun r.
Proof.
  induction r as [| c r IH]; simpl.
  - by destruct k.
  - by rewrite IH.
Qed.

Lemma paramRun_le (r : list N) : (paramRun r ≤ length r)%nat.
Proof. induction r as [| c r IH]; simpl; [lia |]. destruct (isParam c); lia. Qed.

Lemma sgrLength_app_spaces (c : N) (r : list N) (k : nat) :
  sgrLength (c :: r ++ replicate k SPACE) = sgrLength (c :: r).
Proof.
  destruct r as [| b r].
  - destruct k as [| k]; [done |]. simpl.
    destruct (c =? ESC)%N; done.
  - simpl. destruct ((c =? ESC)%N && (b =? LBRACKET)%N); [| done].
    rewrite paramRun_app_spaces.
    destruct (decide (paramRun r < length r)%nat) as [Hlt | Hge].
    + by rewrite lookup_app_l.
    + pose proof (paramRun_le r) as Hle.
      assert (paramRun r = length r) as -> by lia.
      rewrite (lookup_ge_None_2 r) by lia.
      rewrite lookup_app_r by lia. rewrite Nat.sub_diag.
      by destruct k.
Qed.

(** Blanks appended to a line are kept behind its stripped text. *)
Lemma stripAnsi_app_spaces (s : list N) (k : nat) :
  stripAnsi (s ++ replicate k SPACE) = stripAnsi s ++ replicate k SPACE.
Proof.
  induction s as [s IH] using line_ind. destruct s as [| c r].
  - simpl. apply stripAnsi_text. intros Hin.
    apply elem_of_replicate in Hin as [Hin _]. done.
  - change ((c :: r) ++ replicate k SPACE) with (c :: (r ++ replicate k SPACE)).
    rewrite !stripAnsi_cons, sgrLength_app_spaces.
    destruct (sgrLength (c :: r)) as [n |] eqn:Hn.
    + pose proof (sgrLength_bounds _ _ Hn) as Hb. simpl in Hb.
      rewrite drop_app_le by lia. apply IH. simpl. rewrite length_drop. lia.
    + simpl. f_equal. apply IH. simpl. lia.
Qed.

(** X13. [padAnsi] appends blanks only: the line is kept as the beginning of
    the result, and the stripped width of the result is the larger of the
    requested width and the stripped width of the line. *)
Theorem padAnsi_width (str : list N) (width : Z) :
  let len := Z.of_nat (length (stripAnsi str)) in
  str `prefix_of` padAnsi str width
  ∧ stripAnsi (padAnsi str width)
    = stripAnsi str ++ replicate (Z.to_nat (width - len)) SPACE
  ∧ Z.of_nat (length (stripAnsi (padAnsi str width))) = Z.max width len.
Proof.
  intros len. unfold padAnsi. fold len.
  destruct (Z.ltb_spec 0 (width - len)) as [Hpos | Hle].
  - split; [by eexists |]. rewrite stripAnsi_app_spaces.
    split; [done |]. rewrite length_app, length_replicate. fold len. lia.
  - replace (Z.to_nat (width - len)) with 0%nat by lia. simpl.
    rewrite app_nil_r. split; [done |]. split; [done |]. fold len. lia.
Qed.

(** ** Truncation at any budget *)

(** X14. For a line whose stripped text holds no style sequence, with
    stripped width [len]: within the budget the width stays [len]; over a
    budget of at least 1 it becomes exactly the budget; with a budget of 0
    or less the line is cut from its end ([slice] with a negative end) and
    the ellipsis is still appended, so the result is at least 1 wide and
    wider than the budget. *)
Theorem truncateAnsiPreserve_widths (str : list N) (width : Z) :
  stripAnsi (stripAnsi str) = stripAnsi str →
  let len := Z.of_nat (length (stripAnsi str)) in
  let out := Z.of_nat (length (stripAnsi (truncateAnsiPreserve str width))) in
  (len ≤ width → out = len)
  ∧ (1 ≤ width < len → out = width)
  ∧ (width ≤ 0 → width < len → out = Z.max (len + width - 1) 0 + 1 ∧ width < out).
Proof.
  intros Hplain len out. split; [| split].
  - intros Hfit. unfold out. by rewrite truncateAnsiPreserve_fits.
  - intros Hw. by destruct (truncateAnsiPreserve_cuts str width Hw Hplain) as (_ & _ & ?).
  - intros Hw0 Hlt.
    assert (out = Z.max (len + width - 1) 0 + 1) as Hout.
    { unfold out, truncateAnsiPreserve, slice0. fold len.
      destruct (Z.leb_spec len width); [lia |].
      destruct (Z.ltb_spec (width - 1) 0); [| lia].
      rewrite stripAnsi_ansiPrefix_app, (stripAnsi_take_ellipsis _ _ Hplain).
      rewrite length_app, length_take. simpl. fold len. lia. }
    split; [done | lia].
Qed.

Lemma truncateAnsiPreserve_widths_witness :
  Z.of_nat (length (stripAnsi (truncateAnsiPreserve greenLine 20))) = 15
  ∧ Z.of_nat (length (stripAnsi (truncateAnsiPreserve greenLine 4))) = 4
  ∧ Z.of_nat (length (stripAnsi (truncateAnsiPreserve greenLine 0))) = 15
  ∧ Z.of_nat (length (stripAnsi (truncateAnsiPreserve greenLine (-20)))) = 1.
Proof.
  assert (stripAnsi (stripAnsi greenLine) = stripAnsi greenLine) as Hplain
    by (by vm_compute).
  destruct (truncateAnsiPreserve_widths greenLine 20 Hplain) as (H20 & _ & _).
  destruct (truncateAnsiPreserve_widths greenLine 4 Hplain) as (_ & H4 & _).
  destruct (truncateAnsiPreserve_widths greenLine 0 Hplain) as (_ & _ & H0).
  destruct (truncateAnsiPreserve_widths greenLine (-20) Hplain) as (_ & _ & Hneg).
  split; [apply H20; by vm_compute |].
  split; [apply H4; by vm_compute |].
  split; [apply H0; by vm_compute |].
  apply Hneg; by vm_compute.
Defined.

(** X15. On a terminal of at least 62 columns, a log line whose stripped
    text holds no style sequence, truncated to the width of the right
    column and written from the column where the right column starts, ends
    at the last column of the terminal at the latest, and exactly there when
    it had to be cut. *)
Theorem log_line_fits_terminal (line : list N) (columns : Z) :
  62 ≤ columns →
  stripAnsi (stripAnsi line) = stripAnsi line →
  let shown := truncateAnsiPreserve line (getRightColumnWidth columns) in
  let width := Z.of_nat (length (stripAnsi shown)) in
  getRightColumnStart + width - 1 ≤ columns
  ∧ (getRightColumnWidth columns < Z.of_nat (length (stripAnsi line)) →
     getRightColumnStart + width - 1 = columns).
Proof.
  intros Hcols Hplain shown width.
  unfold getRightColumnStart, leftColumnWidth in *.
  assert (getRightColumnWidth columns = columns - 61) as Hw
    by (unfold getRightColumnWidth, leftColumnWidth; lia).
  destruct (Z.le_gt_cases (Z.of_nat (length (stripAnsi line)))
                          (getRightColumnWidth columns)) as [Hfit | Hcut].
  - unfold width, shown. rewrite truncateAnsiPreserve_fits by done. lia.
  - destruct (truncateAnsiPreserve_cuts line (getRightColumnWidth columns))
      as (_ & _ & Hout); [lia | done |].
    fold shown in Hout. fold width in Hout. lia.
Qed.

Lemma log_line_fits_terminal_witness :
  let shown := truncateAnsiPreserve greenLine (getRightColumnWidth 70) in
  getRightColumnStart + Z.of_nat (length (stripAnsi shown)) - 1 = 70.
Proof.
  intros shown.
  destruct (log_line_fits_terminal greenLine 70) as [_ Hcut]; [lia | by vm_compute |].
  apply Hcut. by vm_compute.
Defined.

(** ** The screen *)

Lemma mapM_tableRow (o : Stats) (ks : list string) :
  Forall (λ key, is_Some (entries o !! key)) ks →
  mapM (λ key, tableRow key <$> entries o !! key) ks
  = Some ((λ key, tableRow key (statOf o key)) <$> ks).
Proof.
  induction 1 as [| key ks [k Hk] _ IH]; [done |].
  cbn. rewrite Hk. cbn. rewrite IH. cbn. unfold statOf. by rewrite Hk.
Qed.

Lemma getOverallAccuracy_tracked (o : Stats) :
  tracked o → is_Some (Binary64.getOverallAccuracy o).
Proof.
  intros Ht. unfold Binary64.getOverallAccuracy.
  rewrite (sumTotals_spec o keys 0 0 Ht). by eexists.
Qed.

(** X16. Whenever the meta counter and all tracked keys are present, the
    left column is written as exactly 22 rows: 13 rows of heading and
    totals, the table header, the table rows of the first four keys only
    (q, e, r, t: the table is cut at row 18, so the rows of f, g, c, x and z
    are never on the screen), two rows for the prompt, a blank row and the
    input hint. *)
Theorem leftRows_layout (s : State) (games : Z) :
  tracked (stats s) → meta (stats s) = Some games →
  ∃ accuracy rows,
    Binary64.getOverallAccuracy (stats s) = Some accuracy
    ∧ leftRows s = Some rows
    ∧ rows
      = [TitleLine; SubtitleLine; RuleLine; InstructionLine; KeysLine; ExitLine;
         BlankLine;
         TotalRoundsLine (round s); GamesPlayedLine games; AccuracyLine accuracy;
         RollingAvgLine (getRollingAvg (reactionTimes s));
         BlankLine;
         SummaryTitleLine; TableHeaderLine;
         tableRow "q" (statOf (stats s) "q"); tableRow "e" (statOf (stats s) "e");
         tableRow "r" (statOf (stats s) "r"); tableRow "t" (statOf (stats s) "t")]
        ++ (if noCurrentKey (currentKey s) then [PreparingLine; BlankLine]
            else [RoundLine (round s); PressLine (default ""%string (currentKey s))])
        ++ [BlankLine; TypeAnswerLine]
    ∧ length rows = 22%nat
    ∧ ∀ key att suc err avg best worst,
        TableRowLine key att suc err avg best worst ∈ rows →
        key ∈ ["q"; "e"; "r"; "t"]%string.
Proof.
  intros Ht Hmeta. destruct (getOverallAccuracy_tracked _ Ht) as [accuracy Hacc].
  exists accuracy. eexists. split; [done |].
  assert (getPerKeySummary (stats s)
          = Some (TableHeaderLine :: ((λ key, tableRow key (statOf (stats s) key)) <$> keys)))
    as Hsummary.
  { unfold getPerKeySummary. by rewrite (mapM_tableRow _ keys Ht). }
  unfold leftRows, leftLines. rewrite Hmeta, Hacc, Hsummary.
  split; [reflexivity |].
  destruct (noCurrentKey (currentKey s)); simpl.
  - split; [reflexivity |]. split; [reflexivity |].
    intros key att suc err avg best worst Hin.
    repeat (apply elem_of_cons in Hin as [Heq | Hin];
            [try discriminate Heq; unfold tableRow in Heq; injection Heq as -> |]).
    + apply list_elem_of_here.
    + apply list_elem_of_further, list_elem_of_here.
    + do 2 apply list_elem_of_further. apply list_elem_of_here.
    + do 3 apply list_elem_of_further. apply list_elem_of_here.
    + by apply elem_of_nil in Hin.
  - split; [reflexivity |]. split; [reflexivity |].
    intros key att suc err avg best worst Hin.
    repeat (apply elem_of_cons in Hin as [Heq | Hin];
            [try discriminate Heq; unfold tableRow in Heq; injection Heq as -> |]).
    + apply list_elem_of_here.
    + apply list_elem_of_further, list_elem_of_here.
    + do 2 apply list_elem_of_further. apply list_elem_of_here.
    + do 3 apply list_elem_of_further. apply list_elem_of_here.
    + by apply elem_of_nil in Hin.
Qed.

Lemma leftRows_layout_witness :
  ∃ rows, leftRows freshStart = Some rows
    ∧ length rows = 22%nat
    ∧ rows !! 17%nat = Some (TableRowLine "t" 0 0 0 Binary64.NotAvailable Null Null)
    ∧ rows !! 18%nat = Some (RoundLine 1)
    ∧ rows !! 19%nat = Some (PressLine "q").
Proof.
  destruct (leftRows_layout freshStart 0 defaultStats_tracked eq_refl)
    as (accuracy & rows & _ & Hrows & -> & Hlen & _).
  eexists. split; [exact Hrows |]. split; [exact Hlen |]. by vm_compute.
Defined.

(** X17. The log entries shown in the right column: with more than two
    terminal rows, the last [rows - 2] entries of the log (all of them when
    there are fewer); with exactly two rows, where no row is left for the
    log, the whole log ([slice(-0)] is [slice(0)]); with fewer than two rows,
    the log without its first [2 - rows] entries. *)
Theorem logSlice_cases (rows : Z) (log : list LogEntry) :
  (2 < rows →
   logSlice rows log = lastN (Z.to_nat (rows - 2)) log
   ∧ Z.of_nat (length (logSlice rows log)) = Z.min (rows - 2) (Z.of_nat (length log)))
  ∧ (rows = 2 → logSlice rows log = log)
  ∧ (rows < 2 → logSlice rows log = drop (Z.to_nat (2 - rows)) log).
Proof.
  unfold logSlice, sliceFrom, lastN. split; [| split].
  - intros Hrows. destruct (Z.ltb_spec (- (rows - 2)) 0); [| lia].
    replace (Z.to_nat (Z.max (Z.of_nat (length log) + - (rows - 2)) 0))
      with (length log - Z.to_nat (rows - 2))%nat by lia.
    split; [done |]. rewrite length_drop. lia.
  - intros ->. change (- (2 - 2) <? 0) with false. cbv iota.
    by replace (Z.to_nat (Z.min (- (2 - 2)) (Z.of_nat (length log)))) with 0%nat by lia.
  - intros Hrows. destruct (Z.ltb_spec (- (rows - 2)) 0); [lia |].
    destruct (Z.le_gt_cases (- (rows - 2)) (Z.of_nat (length log))) as [Hle | Hgt].
    + f_equal. lia.
    + rewrite !drop_ge by lia. done.
Qed.

Lemma logSlice_cases_witness :
  logSlice 4 [Correct 1 "q" 120; Oops 2 "x" "e" 300; Correct 3 "r" 90]
  = [Oops 2 "x" "e" 300; Correct 3 "r" 90]
  ∧ logSlice 2 [Correct 1 "q" 120; Oops 2 "x" "e" 300; Correct 3 "r" 90]
    = [Correct 1 "q" 120; Oops 2 "x" "e" 300; Correct 3 "r" 90]
  ∧ logSlice 1 [Correct 1 "q" 120; Oops 2 "x" "e" 300; Correct 3 "r" 90]
    = [Oops 2 "x" "e" 300; Correct 3 "r" 90].
Proof.
  set (log := [Correct 1 "q" 120; Oops 2 "x" "e" 300; Correct 3 "r" 90]).
  destruct (logSlice_cases 4 log) as ((H4 & _) & _ & _); [lia |].
  destruct (logSlice_cases 2 log) as (_ & H2 & _).
  destruct (logSlice_cases 1 log) as (_ & _ & H1).
  split; [by rewrite H4 |]. split; [by rewrite H2 |]. by rewrite H1 by lia.
Defined.

(** ** Rolling average and log *)

Lemma fold_left_add_foldr (ts : list Z) (a : Z) :
  fold_left Z.add ts a = a + foldr Z.add 0 ts.
Proof.
  revert a. induction ts as [| t ts IH]; intros a; simpl; [lia |].
  rewrite IH. lia.
Qed.

(** X18. The rolling average prints "N/A" exactly for an empty window, and
    otherwise a tenth at distance at most 1/20 from the mean of the window;
    from an empty window it stays "N/A" exactly as long as no correct press
    has been scored. *)
Theorem rollingAvg_spec (s : State) (evs : list Event) :
  reactionTimes s = [] →
  (∀ times, getRollingAvg times = NA ↔ times = [])
  ∧ (∀ times : list Z, times ≠ [] →
       let mean := (inject_Z (foldr Z.add 0%Z times)
                    / inject_Z (Z.of_nat (length times)))%Q in
       ∃ n, getRollingAvg times = Fixed1 n ∧ (Qabs ((n # 10) - mean) <= 1 # 20)%Q)
  ∧ (getRollingAvg (reactionTimes (stateOf (run s evs))) = NA
     ↔ correctTimes (scoredPresses s evs) = []).
Proof.
  intros Hempty.
  assert (∀ times, getRollingAvg times = NA ↔ times = []) as Hna.
  { intros [| t ts]; [done |]. unfold getRollingAvg. simpl. split; done. }
  split; [exact Hna |]. split.
  - intros times Hne mean. unfold getRollingAvg.
    destruct times as [| t ts]; [done |].
    change (length (t :: ts) =? 0)%nat with false. cbv iota.
    eexists. split; [reflexivity |].
    rewrite (toFixed1_comp _ mean); [apply toFixed1_nearest |].
    unfold mean. rewrite fold_left_add_foldr, Z.add_0_l. reflexivity.
  - rewrite Hna, run_window, Hempty by (rewrite Hempty; simpl; lia). simpl.
    unfold lastN. split.
    + intros Hdrop. apply (f_equal length) in Hdrop. rewrite length_drop in Hdrop.
      simpl in Hdrop. destruct (correctTimes (scoredPresses s evs)); [done |].
      simpl in Hdrop. lia.
    + by intros ->.
Qed.

Lemma rollingAvg_spec_witness :
  getRollingAvg (reactionTimes (stateOf (run freshStart
     [Keypress (mkKeyEvent (Some "x"%string) "x" 300 true); TimerFired 0 400]))) = NA.
Proof.
  destruct (rollingAvg_spec freshStart
              [Keypress (mkKeyEvent (Some "x"%string) "x" 300 true); TimerFired 0 400]
              eq_refl) as (_ & _ & H).
  apply H. by vm_compute.
Defined.

Lemma step_log (s : State) (ev : Event) :
  resultsLog (stateOf (step s ev))
  = resultsLog s
    ++ match scoredBy s ev with
       | Some p => option_list (logEntryOf (round s) p)
       | None => []
       end.
Proof.
  destruct ev as [e | random time]; simpl.
  - unfold onKeypress, displayFinalStats, saveStats, logEntryOf, isCorrect.
    destruct (String.eqb (sequence e) ctrlC).
    { destruct (meta (stats s)); [destruct (writeOk e) |]; simpl; by rewrite app_nil_r. }
    destruct (currentKey s) as [key |]; simpl; [| by rewrite app_nil_r].
    destruct (String.eqb key ""); [by rewrite app_nil_r |].
    destruct (entries (stats s) !! key); [| by rewrite app_nil_r]. simpl.
    destruct (decide (str e = Some key)) as [Heq | Hne].
    + rewrite Heq. rewrite bool_decide_eq_true_2 by done.
      by destruct (writeOk e).
    + destruct (str e) as [pressed |] eqn:Hstr; simpl.
      * rewrite bool_decide_eq_false_2 by done. by destruct (writeOk e).
      * by rewrite app_nil_r.
  - destruct (pendingRounds s); [by rewrite app_nil_r |]. unfold nextRound. simpl.
    destruct (chooseNextKey (stats s) random); simpl; by rewrite app_nil_r.
Qed.

Lemma withCharacter_app (ps qs : list Scored) :
  withCharacter (ps ++ qs) = withCharacter ps ++ withCharacter qs.
Proof. unfold withCharacter. by rewrite filter_app. Qed.

Lemma run_log (s : State) (evs : list Event) :
  ∃ added, resultsLog (stateOf (run s evs)) = resultsLog s ++ added
           ∧ length added = length (withCharacter (scoredPresses s evs)).
Proof.
  revert s. induction evs as [| ev evs IH]; intros s.
  - exists []. by rewrite app_nil_r.
  - pose proof (step_log s ev) as Hstep. simpl.
    set (here := match scoredBy s ev with Some p => [p] | None => [] end).
    assert (length (match scoredBy s ev with
                    | Some p => option_list (logEntryOf (round s) p)
                    | None => []
                    end) = length (withCharacter here)) as Hlen.
    { unfold here, withCharacter, logEntryOf. destruct (scoredBy s ev) as [p |]; [| done].
      rewrite filter_cons, filter_nil.
      by destruct (pressedStr p). }
    destruct (step s ev) as [s' | s' | s']; simpl in *.
    + destruct (IH s') as (added & Hrun & Hadded).
      eexists. rewrite Hrun, Hstep, <- app_assoc. split; [done |].
      rewrite withCharacter_app, !length_app. fold here. lia.
    + eexists. split; [exact Hstep | done].
    + eexists. split; [exact Hstep | done].
Qed.

(** X19. The log only grows: after any sequence of events it is the log
    from before followed by one line for every scored press that carried a
    character, and nothing else. *)
Theorem log_append_only (s : State) (evs : list Event) :
  resultsLog s `prefix_of` resultsLog (stateOf (run s evs))
  ∧ length (resultsLog (stateOf (run s evs)))
    = (length (resultsLog s) + length (withCharacter (scoredPresses s evs)))%nat.
Proof.
  destruct (run_log s evs) as (added & Hrun & Hadded).
  rewrite Hrun. split; [by exists added |]. rewrite length_app. lia.
Qed.

(** X20. A scored press whose write succeeds leaves the stats file holding
    exactly the store in memory, clears the prompt and schedules one
    [nextRound]; when the store is well formed, starting the program again
    loads the same store. *)
Theorem persisted_after_round (s s' : State) (e : KeyEvent) (p : Scored) :
  storeOk (stats s) →
  scoredBy s (Keypress e) = Some p → writeOk e = true →
  onKeypress s e = Running s' →
  statsFile s' = Object (stats s')
  ∧ loadStats (statsFile s') = Some (stats s')
  ∧ currentKey s' = None
  ∧ pendingRounds s' = S (pendingRounds s).
Proof.
  intros Hok Hscored Hwrite Hrun.
  assert (storeOk (stats s')) as Hok'.
  { pose proof (step_storeOk s (Keypress e) Hok) as H. simpl in H. by rewrite Hrun in H. }
  assert (statsFile s' = Object (stats s') ∧ currentKey s' = None
          ∧ pendingRounds s' = S (pendingRounds s)) as (Hfile & Hkey & Hpending).
  { revert Hscored Hrun. simpl. unfold onKeypress, saveStats. rewrite Hwrite.
    destruct (String.eqb (sequence e) ctrlC); [done |].
    destruct (currentKey s) as [key |]; simpl; [| done].
    destruct (String.eqb key ""); [done |].
    destruct (entries (stats s) !! key); [| done]. intros _.
    destruct (decide (str e = Some key)).
    - by intros [= <-].
    - destruct (str e); [| done]. by intros [= <-]. }
  split; [done |]. split; [| done].
  rewrite Hfile. by apply loadStats_Object.
Qed.

Lemma persisted_after_round_witness :
  let e := mkKeyEvent (Some "q"%string) "q" 120 true in
  statsFile (stateOf (onKeypress freshStart e))
  = Object (stats (stateOf (onKeypress freshStart e)))
  ∧ loadStats (statsFile (stateOf (onKeypress freshStart e)))
    = Some (stats (stateOf (onKeypress freshStart e))).
Proof.
  intros e.
  destruct (persisted_after_round freshStart (stateOf (onKeypress freshStart e)) e
              (mkScored "q" (Some "q"%string) 120)) as (Hfile & Hload & _).
  - apply (loadStats_ok Missing). by vm_compute.
  - by vm_compute.
  - reflexivity.
  - by vm_compute.
  - split; [exact Hfile | exact Hload].
Defined.

(** * The arithmetic as the program evaluates it *)

(** ** Overall accuracy in binary64 *)








(** ** Weighted selection in binary64 *)





















(** * Truncation of styled lines *)

Lemma renderSegments_app (xs ys : list Segment) :
  renderSegments (xs ++ ys) = renderSegments xs ++ renderSegments ys.
Proof. unfold renderSegments. by rewrite fmap_app, concat_app. Qed.

Lemma plainText_app (xs ys : list Segment) :
  plainText (xs ++ ys) = plainText xs ++ plainText ys.
Proof. unfold plainText. by rewrite fmap_app, concat_app. Qed.

Lemma plainText_styles (styles : list (list N)) : plainText (Style <$> styles) = [].
Proof. induction styles as [| ps styles IH]; [done |]. by rewrite fmap_cons, plainText_cons, IH. Qed.

Lemma wellFormed_styles (styles : list (list N)) :
  Forall (Forall (λ c, isParam c = true)) styles → Forall wellFormed (Style <$> styles).
Proof.
  induction 1 as [| ps styles Hps _ IH]; [apply List.Forall_nil |].
  rewrite fmap_cons. by apply List.Forall_cons.
Qed.

Lemma stripAnsi_renderSegments (segs : list Segment) :
  Forall wellFormed segs → stripAnsi (renderSegments segs) = plainText segs.
Proof.
  induction 1 as [| seg segs Hseg _ IH]; [done |].
  rewrite renderSegments_cons, plainText_cons.
  destruct seg as [t | params]; simpl in *.
  - by rewrite stripAnsi_text_app, IH.
  - rewrite <- app_assoc. by rewrite (stripAnsi_style_app params), IH.
Qed.

Lemma ansiPrefix_style_app (params rest : list N) :
  Forall (λ c, isParam c = true) params →
  ansiPrefix (ESC :: LBRACKET :: params ++ [LOWER_M] ++ rest)
  = (ESC :: LBRACKET :: params ++ [LOWER_M]) ++ ansiPrefix rest.
Proof.
  intros Hps. rewrite ansiPrefix_cons.
  destruct (paramRun_params_app params rest LOWER_M Hps eq_refl) as [Hrun Hm].
  assert (sgrLength (ESC :: LBRACKET :: params ++ [LOWER_M] ++ rest)
          = Some (length params + 3)%nat) as ->.
  { simpl. by rewrite Hrun, Hm. }
  replace (pred (length params + 3)) with (S (length params + 1)) by lia.
  replace (length params + 3)%nat with (S (S (length params + 1))) by lia.
  simpl.
  replace (params ++ LOWER_M :: rest) with ((params ++ [LOWER_M]) ++ rest)
    by (by rewrite <- app_assoc).
  assert (length (params ++ [LOWER_M]) = (length params + 1)%nat) as Hlen
    by (rewrite length_app; simpl; lia).
  rewrite take_app_length', drop_app_length' by done. done.
Qed.

Lemma ansiPrefix_styles_app (styles : list (list N)) (rest : list N) :
  Forall (Forall (λ c, isParam c = true)) styles →
  ansiPrefix (renderSegments (Style <$> styles) ++ rest)
  = renderSegments (Style <$> styles) ++ ansiPrefix rest.
Proof.
  induction 1 as [| ps styles Hps _ IH]; [done |].
  rewrite fmap_cons, renderSegments_cons. simpl renderSegment.
  rewrite <- !app_assoc.
  change ((ESC :: LBRACKET :: ps ++ [LOWER_M]) ++ renderSegments (Style <$> styles) ++ rest)
    with (ESC :: LBRACKET :: (ps ++ [LOWER_M]) ++ renderSegments (Style <$> styles) ++ rest).
  rewrite <- (app_assoc ps [LOWER_M]).
  rewrite (ansiPrefix_style_app ps) by done. rewrite IH.
  simpl. by rewrite <- !app_assoc.
Qed.

(** C9. A styled line is a run of style sequences [ESC [ params m] followed
    by texts without the escape character and further style sequences.  When
    its printable content has 15 characters, [truncateAnsiPreserve] with a
    budget of 10 returns a line whose printable content is the first 9
    printable characters and one ellipsis, of printable width 10, and that
    starts with the leading style sequences of the input (when a text
    follows them, the result is exactly these sequences, the 9 characters
    and the ellipsis); a line whose printable width is at most the budget is
    returned unchanged. *)
Theorem truncateAnsiPreserve_styled (styles : list (list N)) (segs : list Segment) :
  Forall (Forall (λ c, isParam c = true)) styles →
  Forall wellFormed segs →
  length (plainText segs) = 15%nat →
  let lead := renderSegments (Style <$> styles) in
  let line := lead ++ renderSegments segs in
  let res := truncateAnsiPreserve line 10 in
  stripAnsi line = plainText segs
  ∧ stripAnsi res = take 9 (plainText segs) ++ [ELLIPSIS]
  ∧ length (stripAnsi res) = 10%nat
  ∧ lead `prefix_of` res
  ∧ res = lead ++ ansiPrefix (renderSegments segs) ++ take 9 (plainText segs) ++ [ELLIPSIS]
  ∧ (∀ c t rest, segs = Text (c :: t) :: rest →
       res = lead ++ take 9 (plainText segs) ++ [ELLIPSIS])
  ∧ (∀ (other : list N) (width : Z),
       Z.of_nat (length (stripAnsi other)) ≤ width →
       truncateAnsiPreserve other width = other).
Proof.
  intros Hstyles Hwf Hlen lead line res.
  assert (stripAnsi line = plainText segs) as Hstrip.
  { unfold line, lead. rewrite <- renderSegments_app.
    rewrite stripAnsi_renderSegments.
    - by rewrite plainText_app, plainText_styles.
    - apply Forall_app. split; [by apply wellFormed_styles | done]. }
  assert (stripAnsi (stripAnsi line) = stripAnsi line) as Hidem.
  { rewrite Hstrip. apply stripAnsi_text. by apply plainText_no_esc. }
  destruct (truncateAnsiPreserve_cuts line 10) as (Hres & Hplain & Hwidth).
  { rewrite Hstrip, Hlen. lia. }
  { done. }
  fold res in Hres, Hplain, Hwidth.
  change (Z.to_nat (10 - 1)) with 9%nat in Hres, Hplain.
  rewrite Hstrip in Hres, Hplain.
  assert (res = lead ++ ansiPrefix (renderSegments segs)
                  ++ take 9 (plainText segs) ++ [ELLIPSIS]) as Hshape.
  { rewrite Hres. unfold line, lead.
    rewrite ansiPrefix_styles_app by done. by rewrite <- app_assoc. }
  split; [done |]. split; [done |]. split; [lia |].
  split; [rewrite Hshape; by apply prefix_app_r |].
  split; [done |]. split.
  - intros c t rest Hsegs. rewrite Hshape. f_equal.
    assert (ansiPrefix (renderSegments segs) = []) as ->; [| done].
    rewrite Hsegs in Hwf |- *. apply Forall_cons in Hwf as [Hc _]. simpl in Hc.
    apply not_elem_of_cons in Hc as [Hc _].
    rewrite renderSegments_cons. simpl.
    by rewrite ansiPrefix_cons, sgrLength_not_esc.
  - intros other width. apply truncateAnsiPreserve_fits.
Qed.

Lemma truncateAnsiPreserve_styled_witness :
  stripAnsi greenLine = replicate 15 97%N
  ∧ stripAnsi (truncateAnsiPreserve greenLine 10) = replicate 9 97%N ++ [ELLIPSIS]
  ∧ length (stripAnsi (truncateAnsiPreserve greenLine 10)) = 10%nat
  ∧ [ESC; LBRACKET; 51; 50; LOWER_M]%N `prefix_of` truncateAnsiPreserve greenLine 10
  ∧ truncateAnsiPreserve greenLine 10
    = [ESC; LBRACKET; 51; 50; LOWER_M]%N ++ replicate 9 97%N ++ [ELLIPSIS].
Proof.
  destruct (truncateAnsiPreserve_styled
              [[51; 50]%N] [Text (replicate 15 97%N); Style [51; 57]%N])
    as (Hstrip & Hplain & Hwidth & Hlead & _ & Hexact & _).
  - apply List.Forall_cons; [| apply List.Forall_nil].
    repeat (apply List.Forall_cons; [reflexivity |]). apply List.Forall_nil.
  - apply List.Forall_cons.
    { simpl. apply (bool_decide_unpack _). by vm_compute. }
    apply List.Forall_cons; [| apply List.Forall_nil].
    simpl. repeat (apply List.Forall_cons; [reflexivity |]). apply List.Forall_nil.
  - reflexivity.
  - split; [exact Hstrip |]. split; [exact Hplain |]. split; [exact Hwidth |].
    split; [exact Hlead |]. by apply (Hexact 97%N (replicate 14 97%N) [Style [51; 57]%N]).
Defined.
